(** * Zenn Hack Extension: storage wrapper, word cache, credential cache,
      background resolution and mutation gateway.

    A shallow embedding of [src/lib/storage.ts], [src/lib/api.ts], the
    background script and the lookup phase of [hooks/useWordData.ts].

    Asynchronous functions become computations in a small state/exception
    monad [M] over a [World]: the contents of [browser.storage.local], the
    value [Date.now()] returns, and the trace of calls made to the browser
    (storage operations, [fetch], [setTimeout]-based delays, messages and
    React state setters).  What the environment decides (whether a storage
    call rejects, what a [fetch] answers, whether a message is taken) is read
    from an [Env] oracle, indexed by the number of such calls made so far.  *)

From Stdlib Require Import ZArith String Ascii List Lia Bool.
From stdpp Require Import base option gmap strings list fin_maps.

Local Open Scope Z_scope.
Local Open Scope string_scope.

(* ===================================================================== *)
(** ** Data model ([types], [storage.ts]) *)
(* ===================================================================== *)

Inductive pos : Type :=
| noun | pronoun | intransitiveVerb | transitiveVerb | adjective | adverb
| auxiliaryVerb | preposition | article | interjection | conjunction | idiom.

Record Word : Type := mkWord {
  wordId : string;
  word_text : string;        (* field [word] *)
  coreMeaning : string;
  explanation : string }.

Record Meaning : Type := mkMeaning {
  meaningId : string;
  meaning_pos : pos;         (* field [pos] *)
  translation : string;
  pronunciation : string;
  exampleEng : string;
  exampleJpn : string }.

Record Media : Type := mkMedia {
  mediaId : string;
  media_meaningId : string;  (* field [meaningId] *)
  mediaUrls : list string }.

(** [WordData]: what the word endpoint answers. *)
Record WordData : Type := mkWordData {
  flashcardId : string;
  word : Word;
  meanings : list Meaning;
  media : Media }.

(** [CachedWordData] / [StoredWordData]: the object [{...data, cachedAt}].
    The background script also passes a freshly fetched [WordData] where a
    stored one is expected; such an object has no [cachedAt] property, hence
    the option. *)
Record CachedWordData : Type := mkCached {
  cached_data : WordData;
  cachedAt : option Z }.

(** [CurrentWordData]: [{word, data, timestamp}]. *)
Record CurrentWordData : Type := mkCurrent {
  cur_word : string;
  cur_data : CachedWordData;
  cur_timestamp : Z }.

(** Run-time values.  Those held by [browser.storage.local]: primitives, kept
    as they are (the wrapper is generic in the value), and the two object
    shapes the extension stores, typed as their TypeScript interfaces declare
    them.  And [JInherited name]: the member a plain object inherits from
    [Object.prototype] under [name] (a function such as [toString], or the
    prototype itself for ["__proto__"]), which a property read finds when the
    object has no property of its own by that name. *)
Inductive JsVal : Type :=
| JNull
| JBool (b : bool)
| JNum (n : Z)
| JStr (s : string)
| JWordCache (c : gmap string CachedWordData)   (* Record<string, CachedWordData> *)
| JCurrentWord (w : CurrentWordData)
| JInherited (name : string).

(** JavaScript truthiness, as used by [||], [&&] and [!]. *)
Definition truthy (v : JsVal) : bool :=
  match v with
  | JNull => false
  | JBool b => b
  | JNum n => negb (Z.eqb n 0)
  | JStr s => negb (String.eqb s "")
  | JWordCache _ => true
  | JCurrentWord _ => true
  | JInherited _ => true
  end.

(** The names every plain object answers to through [Object.prototype]. *)
Definition Object_prototype_names : list string :=
  [ "constructor"; "hasOwnProperty"; "isPrototypeOf"; "propertyIsEnumerable";
    "toLocaleString"; "toString"; "valueOf"; "__proto__";
    "__defineGetter__"; "__defineSetter__"; "__lookupGetter__"; "__lookupSetter__" ].

Definition inherited (key : string) : bool :=
  existsb (String.eqb key) Object_prototype_names.

(** [obj[key]] on a plain object with the own properties [obj]: the own
    property when there is one, else the inherited member if [key] names one,
    else [undefined]. *)
Definition prop_get (obj : gmap string JsVal) (key : string) : option JsVal :=
  match obj !! key with
  | Some v => Some v
  | None => if inherited key then Some (JInherited key) else None
  end.

(** [x || null] on a possibly missing property. *)
Definition or_null (o : option JsVal) : option JsVal :=
  match o with
  | Some v => if truthy v then Some v else None
  | None => None
  end.

(** [AuthData].  TypeScript declares the three fields as [string]; the getter
    copies whatever the store holds, so they are run-time values here. *)
Record AuthData : Type := mkAuth {
  token : JsVal;
  userId : JsVal;
  email : JsVal }.

Module STORAGE_KEYS.
Definition AUTH_TOKEN : string := "authToken".
Definition USER_ID : string := "userId".
Definition USER_EMAIL : string := "userEmail".
Definition CURRENT_WORD : string := "currentWord".
Definition WORD_CACHE : string := "wordCache".
Definition SETTINGS : string := "settings".
End STORAGE_KEYS.

(* ===================================================================== *)
(** ** The browser: requests, events, worlds *)
(* ===================================================================== *)

Record AddFlashcardRequest : Type := mkAddReq {
  req_userId : JsVal;
  req_flashcardId : string }.

Record Request : Type := mkRequest {
  url : string;
  method : string;
  authorization : option JsVal;          (* [Bearer ${token}] when present *)
  req_body : option AddFlashcardRequest }.

(** Messages sent with [browser.runtime.sendMessage]. *)
Inductive Message : Type :=
| WORD_DETECTED (w : string) (url : string) (ts : Z)
| GET_CURRENT_WORD_DATA
| ADD_FLASHCARD (id : string).

(** React state setters of the [useWordData] hook. *)
Inductive UiUpdate : Type :=
| SetError (msg : option string)
| SetIsLoading (b : bool)
| SetCurrentWord (c : option CurrentWordData).

Inductive Event : Type :=
| EvGet (keys : list string)
| EvSet (data : gmap string JsVal)
| EvRemove (keys : list string)
| EvClear
| EvFetch (r : Request)
| EvDelay (ms : Z)
| EvSend (m : Message)
| EvUi (u : UiUpdate)
| EvRefreshLater (ms : Z).

Definition is_storage_op (e : Event) : bool :=
  match e with
  | EvGet _ | EvSet _ | EvRemove _ | EvClear => true
  | _ => false
  end.

Definition is_write (e : Event) : bool :=
  match e with
  | EvSet _ | EvRemove _ | EvClear => true
  | _ => false
  end.

Definition is_fetch (e : Event) : bool :=
  match e with
  | EvFetch _ => true
  | _ => false
  end.

Definition is_send (e : Event) : bool :=
  match e with
  | EvSend _ => true
  | _ => false
  end.

(** The trace is kept newest first. *)
Record World : Type := mkWorld {
  store : gmap string JsVal;
  clock : Z;
  trace : list Event }.

Definition count (p : Event -> bool) (t : list Event) : nat :=
  length (List.filter p t).

Definition storage_ops (w : World) : nat := count is_storage_op (trace w).
Definition writes (w : World) : nat := count is_write (trace w).
Definition fetches (w : World) : nat := count is_fetch (trace w).
Definition sends (w : World) : nat := count is_send (trace w).

Inductive JsError : Type :=
| StorageError                 (* a rejected storage call *)
| NetworkError                 (* [fetch] rejected *)
| HttpError (status : Z)       (* [new Error(`HTTP ${status}: ...`)] *)
| SyntaxError                  (* [response.json()] rejected *)
| Undefined                    (* [throw undefined] *)
| MessagingError.              (* [runtime.sendMessage] rejected *)

Inductive Res (A : Type) : Type :=
| Ok (a : A)
| Throw (e : JsError).
Arguments Ok {A} a.
Arguments Throw {A} e.

(** A response, with what [response.json()] makes of its body: [None] when
    the body is not JSON (the call rejects), [Some b] when it parses to a
    value [b] of the shape the caller declares for it.  JSON of any other
    shape ([null], a number, a string, an array) has no counterpart here: the
    code would handle such a value as it comes, and nothing below speaks of
    that case. *)
Record Response (T : Type) : Type := mkResponse {
  status : Z;
  body : option T }.
Arguments mkResponse {T} _ _.
Arguments status {T} _.
Arguments body {T} _.

(** [response.ok] *)
Definition ok {T} (r : Response T) : bool :=
  Z.leb 200 (status r) && Z.leb (status r) 299.

Inductive FetchOutcome (T : Type) : Type :=
| NetFail
| Answer (r : Response T).
Arguments NetFail {T}.
Arguments Answer {T} r.

(** What the environment decides. *)
Record Env (T : Type) : Type := mkEnv {
  storage_fault : nat -> bool;            (* does the n-th storage call reject? *)
  fetch_result : nat -> FetchOutcome T;   (* outcome of the n-th [fetch] *)
  API_BASE_URL : string;
  encodeURIComponent : string -> string;
  send_fault : nat -> bool }.             (* does the n-th [sendMessage] reject? *)
Arguments send_fault {T} _ _.
Arguments storage_fault {T} _ _.
Arguments fetch_result {T} _ _.
Arguments API_BASE_URL {T} _.
Arguments encodeURIComponent {T} _ _.

(* ===================================================================== *)
(** ** The monad of asynchronous computations *)
(* ===================================================================== *)

Definition M (A : Type) : Type := World -> Res A * World.

Definition ret {A} (a : A) : M A := fun w => (Ok a, w).

Definition bind {A B} (c : M A) (k : A -> M B) : M B :=
  fun w => match c w with
           | (Ok a, w') => k a w'
           | (Throw e, w') => (Throw e, w')
           end.

Definition throw {A} (e : JsError) : M A := fun w => (Throw e, w).

(** [try { c } catch (error) { h error }] *)
Definition try_catch {A} (c : M A) (h : JsError -> M A) : M A :=
  fun w => match c w with
           | (Ok a, w') => (Ok a, w')
           | (Throw e, w') => h e w'
           end.

Declare Scope js_scope.
Delimit Scope js_scope with js.
Notation "x <- c ;; k" := (bind c (fun x => k))
  (at level 100, c at next level, right associativity) : js_scope.
Notation "c ;; k" := (bind c (fun _ => k))
  (at level 100, right associativity) : js_scope.
Local Open Scope js_scope.

Definition emit (e : Event) (w : World) : World :=
  mkWorld (store w) (clock w) (e :: trace w).

Definition set_store (s : gmap string JsVal) (w : World) : World :=
  mkWorld s (clock w) (trace w).

(** The environment moving time on between two calls.  Within a call the
    clock moves only by the delays the code asks for. *)
Definition at_time (t : Z) (w : World) : World :=
  mkWorld (store w) t (trace w).

(** Restriction of the store to the requested keys: the object
    [storage.local.get] resolves to. *)
Fixpoint pick (keys : list string) (s : gmap string JsVal) : gmap string JsVal :=
  match keys with
  | [] => ∅
  | k :: ks => match s !! k with
               | Some v => <[k := v]> (pick ks s)
               | None => pick ks s
               end
  end.

Fixpoint remove_keys (keys : list string) (s : gmap string JsVal) : gmap string JsVal :=
  match keys with
  | [] => s
  | k :: ks => delete k (remove_keys ks s)
  end.

Section Browser.
Context {T : Type} (env : Env T).

(** One call of [browser.storage.local]: logged, then rejected or applied. *)
Definition storage_call {A} (e : Event)
    (run : gmap string JsVal -> A * gmap string JsVal) : M A :=
  fun w =>
    let w' := emit e w in
    if storage_fault env (storage_ops w) then (Throw StorageError, w')
    else let '(a, s') := run (store w) in (Ok a, set_store s' w').

Definition local_get (keys : list string) : M (gmap string JsVal) :=
  storage_call (EvGet keys) (fun s => (pick keys s, s)).

Definition local_set (data : gmap string JsVal) : M unit :=
  storage_call (EvSet data) (fun s => (tt, data ∪ s)).

Definition local_remove (keys : list string) : M unit :=
  storage_call (EvRemove keys) (fun s => (tt, remove_keys keys s)).

Definition local_clear : M unit :=
  storage_call EvClear (fun _ => (tt, ∅)).

(** [fetch(url, config)] *)
Definition fetch (r : Request) : M (Response T) :=
  fun w =>
    let w' := emit (EvFetch r) w in
    match fetch_result env (fetches w) with
    | NetFail => (Throw NetworkError, w')
    | Answer resp => (Ok resp, w')
    end.

(** [response.json()] *)
Definition json (r : Response T) : M T :=
  match body r with
  | Some b => ret b
  | None => throw SyntaxError
  end.

(** [Date.now()].  The clock of a world is what the call reads.  Within a
    call only [delay] moves it, and [at_time] moves it between calls; the
    time an awaited storage call or request takes is not represented. *)
Definition Date_now : M Z := fun w => (Ok (clock w), w).

(** [new Promise(resolve => setTimeout(resolve, ms))] *)
Definition delay (ms : Z) : M unit :=
  fun w => (Ok tt, mkWorld (store w) (clock w + ms) (EvDelay ms :: trace w)).

Definition log (e : Event) : M unit := fun w => (Ok tt, emit e w).

(** [browser.runtime.sendMessage(m)]: the call is logged; it rejects when no
    receiver takes the message. *)
Definition sendMessage (m : Message) : M unit :=
  fun w =>
    let w' := emit (EvSend m) w in
    if send_fault env (sends w) then (Throw MessagingError, w') else (Ok tt, w').

(* =================================================================== *)
(** ** [StorageManager] ([storage.ts]) *)
(* =================================================================== *)

(** [return result[key] || null], [catch] gives [null]. *)
Definition StorageManager_get (key : string) : M (option JsVal) :=
  try_catch
    (result <- local_get [key] ;;
     ret (or_null (prop_get result key)))
    (fun _ => ret None).

Definition StorageManager_getMultiple (keys : list string)
    : M (gmap string JsVal) :=
  try_catch (local_get keys) (fun _ => ret ∅).

Definition StorageManager_set (key : string) (value : JsVal) : M unit :=
  try_catch (local_set {[ key := value ]}) (fun _ => ret tt).

Definition StorageManager_setMultiple (data : gmap string JsVal) : M unit :=
  try_catch (local_set data) (fun _ => ret tt).

Definition StorageManager_remove (key : string) : M unit :=
  try_catch (local_remove [key]) (fun _ => ret tt).

Definition StorageManager_removeMultiple (keys : list string) : M unit :=
  try_catch (local_remove keys) (fun _ => ret tt).

Definition StorageManager_clear : M unit :=
  try_catch local_clear (fun _ => ret tt).


(* ===================================================================== *)
(** ** [authStorage] ([storage.ts]) *)
(* ===================================================================== *)

Definition authStorage_setAuthData (authData : AuthData) : M unit :=
  StorageManager_setMultiple
    (<[ STORAGE_KEYS.AUTH_TOKEN := token authData ]>
     (<[ STORAGE_KEYS.USER_ID := userId authData ]>
      (<[ STORAGE_KEYS.USER_EMAIL := email authData ]> ∅))).

Definition authStorage_getAuthData : M (option AuthData) :=
  data <- StorageManager_getMultiple
            [STORAGE_KEYS.AUTH_TOKEN; STORAGE_KEYS.USER_ID; STORAGE_KEYS.USER_EMAIL] ;;
  match data !! STORAGE_KEYS.AUTH_TOKEN,
        data !! STORAGE_KEYS.USER_ID,
        data !! STORAGE_KEYS.USER_EMAIL with
  | Some t, Some u, Some e =>
      if truthy t && truthy u && truthy e
      then ret (Some (mkAuth t u e))
      else ret None
  | _, _, _ => ret None
  end.

Definition authStorage_clearAuthData : M unit :=
  StorageManager_removeMultiple
    [STORAGE_KEYS.AUTH_TOKEN; STORAGE_KEYS.USER_ID; STORAGE_KEYS.USER_EMAIL].

(* ===================================================================== *)
(** ** [wordCacheStorage] ([storage.ts]) *)
(* ===================================================================== *)

(** [60 * 60 * 1000] *)
Definition CACHE_EXPIRY : Z := 60 * 60 * 1000.

(** [stored || {}], read at the type [Record<string, CachedWordData>] the
    code gives it: a missing or falsy value is the empty object.  The code
    never stores anything but such an object under this key; a value of
    another shape reads as an object without entries, and the statements
    that write through the slot assume [cache_slot_typed].  The entries are
    the object's own properties; [cache[word]] on a word without one finds
    nothing or an inherited member, which has no [cachedAt] and so never
    passes the freshness test. *)
Definition as_cache (o : option JsVal) : gmap string CachedWordData :=
  match o with
  | Some (JWordCache c) => c
  | _ => ∅
  end.

(** The slot holds what the annotation says. *)
Definition cache_slot_typed (s : gmap string JsVal) : Prop :=
  match s !! STORAGE_KEYS.WORD_CACHE with
  | None | Some (JWordCache _) => True
  | Some v => truthy v = false
  end.

(** [cache[word] = entry] on a plain object.  Every name but ["__proto__"]
    becomes, or stays, an own property.  ["__proto__"] is an accessor of
    [Object.prototype]: unless the object owns a property of that name, the
    assignment sets the object's prototype and adds no property, so nothing
    of it reaches the store. *)
Definition assign_entry (word : string) (entry : CachedWordData)
    (cache : gmap string CachedWordData) : gmap string CachedWordData :=
  match cache !! word with
  | Some _ => <[ word := entry ]> cache
  | None => if String.eqb word "__proto__" then cache else <[ word := entry ]> cache
  end.

(** [Date.now() - cachedData.cachedAt < CACHE_EXPIRY]; a missing [cachedAt]
    makes the difference [NaN] and the comparison false. *)
Definition fresh (now : Z) (d : CachedWordData) : bool :=
  match cachedAt d with
  | Some t => Z.ltb (now - t) CACHE_EXPIRY
  | None => false
  end.

(** [cachedData && fresh ? cachedData : null] *)
Definition lookup_fresh (now : Z) (cache : gmap string CachedWordData)
    (word : string) : option CachedWordData :=
  match cache !! word with
  | Some d => if fresh now d then Some d else None
  | None => None
  end.

Definition wordCacheStorage_getCachedWord (word : string)
    : M (option CachedWordData) :=
  stored <- StorageManager_get STORAGE_KEYS.WORD_CACHE ;;
  let cache := as_cache stored in
  now <- Date_now ;;
  ret (lookup_fresh now cache word).

Definition wordCacheStorage_setCachedWord (word : string) (data : WordData)
    : M unit :=
  stored <- StorageManager_get STORAGE_KEYS.WORD_CACHE ;;
  let cache := as_cache stored in
  now <- Date_now ;;
  StorageManager_set STORAGE_KEYS.WORD_CACHE
    (JWordCache (assign_entry word (mkCached data (Some now)) cache)).

(** [cleanExpiredCache]: the entries of [Object.entries(cache)] that are
    still fresh, each copied under its own name.  (A cache owning a
    ["__proto__"] property, which [assign_entry] never creates, is the one
    case where the copy would lose an entry the filter keeps.) *)
Definition wordCacheStorage_cleanExpiredCache : M unit :=
  stored <- StorageManager_get STORAGE_KEYS.WORD_CACHE ;;
  let cache := as_cache stored in
  now <- Date_now ;;
  StorageManager_set STORAGE_KEYS.WORD_CACHE
    (JWordCache (filter (fun kv => fresh now kv.2 = true) cache)).

(* ===================================================================== *)
(** ** [currentWordStorage] ([storage.ts]) *)
(* ===================================================================== *)

Definition currentWordStorage_setCurrentWord (word : string)
    (data : CachedWordData) : M unit :=
  now <- Date_now ;;
  StorageManager_set STORAGE_KEYS.CURRENT_WORD
    (JCurrentWord (mkCurrent word data now)).

Definition currentWordStorage_getCurrentWord : M (option JsVal) :=
  StorageManager_get STORAGE_KEYS.CURRENT_WORD.

Definition currentWordStorage_clearCurrentWord : M unit :=
  StorageManager_remove STORAGE_KEYS.CURRENT_WORD.

(* ===================================================================== *)
(** ** Background script: credentials and the mutation gateway *)
(* ===================================================================== *)

Definition getAuthToken : M (option JsVal) :=
  try_catch
    (result <- local_get [STORAGE_KEYS.AUTH_TOKEN] ;;
     ret (or_null (result !! STORAGE_KEYS.AUTH_TOKEN)))
    (fun _ => ret None).

Definition setAuthToken (tok : JsVal) : M unit :=
  try_catch (local_set {[ STORAGE_KEYS.AUTH_TOKEN := tok ]}) (fun _ => ret tt).

Definition getUserId : M (option JsVal) :=
  try_catch
    (result <- local_get [STORAGE_KEYS.USER_ID] ;;
     ret (or_null (result !! STORAGE_KEYS.USER_ID)))
    (fun _ => ret None).

(** [addFlashcardToUser]: one [PUT], guarded by the stored token and user id. *)
Definition addFlashcardToUser (flashcardId : string) : M bool :=
  try_catch
    (authToken <- getAuthToken ;;
     userId <- getUserId ;;
     match authToken, userId with
     | Some tok, Some uid =>
         response <- fetch (mkRequest (API_BASE_URL env ++ "/user/add/usingFlashcard")
                                      "PUT" (Some tok)
                                      (Some (mkAddReq uid flashcardId))) ;;
         if negb (ok response) then ret false else ret true
     | _, _ => ret false
     end)
    (fun _ => ret false).

(** The [ADD_FLASHCARD] handler: [sendResponse({ success })]. *)
Definition on_ADD_FLASHCARD (flashcardId : string) : M bool :=
  addFlashcardToUser flashcardId.

(** The [SET_AUTH_DATA] handler; its second write is not guarded. *)
Definition on_SET_AUTH_DATA (tok uid : JsVal) : M bool :=
  setAuthToken tok ;;
  local_set {[ STORAGE_KEYS.USER_ID := uid ]} ;;
  ret true.

(** The [GET_CURRENT_WORD_DATA] handler. *)
Definition on_GET_CURRENT_WORD_DATA : M (option JsVal) :=
  try_catch
    (result <- local_get [STORAGE_KEYS.CURRENT_WORD] ;;
     ret (or_null (result !! STORAGE_KEYS.CURRENT_WORD)))
    (fun _ => ret None).

(* ===================================================================== *)
(** ** [ApiClient] ([api.ts]) *)
(* ===================================================================== *)

Record ApiClient : Type := mkApiClient {
  baseUrl : string;
  retryAttempts : Z;
  retryDelay : Z }.

(** [new ApiClient()] *)
Definition apiClient : ApiClient := mkApiClient (API_BASE_URL env) 3 1000.

(** The loop [for (attempt = 1; attempt <= retryAttempts; attempt++)], with
    [fuel] the number of iterations left; [throw lastError!] follows it. *)
Fixpoint request_loop (c : ApiClient) (r : Request) (fuel : nat) (attempt : Z)
    (lastError : JsError) : M T :=
  match fuel with
  | O => throw lastError
  | S fuel' =>
      try_catch
        (response <- fetch r ;;
         if negb (ok response) then throw (HttpError (status response))
         else json response)
        (fun error =>
           (if Z.ltb attempt (retryAttempts c)
            then delay (retryDelay c * attempt)
            else ret tt) ;;
           request_loop c r fuel' (attempt + 1) error)
  end.

Definition ApiClient_request (c : ApiClient) (endpoint : string)
    (meth : string) (payload : option AddFlashcardRequest) : M T :=
  authToken <- getAuthToken ;;
  request_loop c (mkRequest (baseUrl c ++ endpoint) meth authToken payload)
    (Z.to_nat (retryAttempts c)) 1 Undefined.

Definition ApiClient_get (c : ApiClient) (endpoint : string) : M T :=
  ApiClient_request c endpoint "GET" None.

Definition ApiClient_post (c : ApiClient) (endpoint : string)
    (payload : AddFlashcardRequest) : M T :=
  ApiClient_request c endpoint "POST" (Some payload).

Definition wordApi_getWord (word : string) : M T :=
  ApiClient_get apiClient ("/word/" ++ encodeURIComponent env word).

Definition wordApi_addFlashcard (userId : JsVal) (flashcardId : string) : M T :=
  ApiClient_post apiClient "/user/add/usingFlashcard" (mkAddReq userId flashcardId).

End Browser.

(* ===================================================================== *)
(** ** Background script: word resolution *)
(* ===================================================================== *)

Section Resolution.
Context (env : Env WordData).

Definition getCachedWordData (word : string) : M (option CachedWordData) :=
  try_catch
    (result <- local_get env [STORAGE_KEYS.WORD_CACHE] ;;
     let cache := as_cache (or_null (result !! STORAGE_KEYS.WORD_CACHE)) in
     now <- Date_now ;;
     ret (lookup_fresh now cache word))
    (fun _ => ret None).

Definition setCachedWordData (word : string) (data : WordData) : M unit :=
  try_catch
    (result <- local_get env [STORAGE_KEYS.WORD_CACHE] ;;
     let cache := as_cache (or_null (result !! STORAGE_KEYS.WORD_CACHE)) in
     now <- Date_now ;;
     local_set env
       {[ STORAGE_KEYS.WORD_CACHE :=
            JWordCache (assign_entry word (mkCached data (Some now)) cache) ]})
    (fun _ => ret tt).

(** [fetchWordData]: cache first, then a single [GET]; every failure is
    logged and turned into [null]. *)
Definition fetchWordData (word : string) : M (option CachedWordData) :=
  try_catch
    (cachedData <- getCachedWordData word ;;
     match cachedData with
     | Some d => ret (Some d)
     | None =>
         response <- fetch env
                       (mkRequest (API_BASE_URL env ++ "/word/"
                                     ++ encodeURIComponent env word)
                                  "GET" None None) ;;
         if negb (ok response) then ret None
         else
           data <- json response ;;
           setCachedWordData word data ;;
           ret (Some (mkCached data None))
     end)
    (fun _ => ret None).

Definition setCurrentWord (word : string) (data : CachedWordData) : M unit :=
  try_catch
    (now <- Date_now ;;
     local_set env
       {[ STORAGE_KEYS.CURRENT_WORD := JCurrentWord (mkCurrent word data now) ]})
    (fun _ => ret tt).

(** The [WORD_DETECTED] handler. *)
Definition on_WORD_DETECTED (word : string) : M unit :=
  wordData <- fetchWordData word ;;
  match wordData with
  | Some d => setCurrentWord word d
  | None => ret tt
  end.

End Resolution.

(* ===================================================================== *)
(** ** JavaScript strings (on the ASCII range) *)
(* ===================================================================== *)

(** Strings are sequences of 8-bit characters.  [toLowerCase] and [trim] below
    are [String.prototype.toLowerCase] and [String.prototype.trim] on strings
    of ASCII characters (codes below 128, [is_ascii]): the detector only lets
    words matching [[a-zA-Z]+] through.  Outside that range JavaScript also
    lowercases letters such as U+212A and trims blanks such as U+00A0; a
    statement that depends on it is made for ASCII strings only. *)
Definition is_ascii (c : ascii) : bool := Nat.ltb (nat_of_ascii c) 128.

Definition lower (c : ascii) : ascii :=
  let n := nat_of_ascii c in
  if Nat.leb 65 n && Nat.leb n 90 then ascii_of_nat (n + 32) else c.

Definition is_ws (c : ascii) : bool :=
  let n := nat_of_ascii c in
  (Nat.leb 9 n && Nat.leb n 13) || Nat.eqb n 32.

Fixpoint toLowerCase (s : string) : string :=
  match s with
  | EmptyString => EmptyString
  | String c r => String (lower c) (toLowerCase r)
  end.

Fixpoint trimStart (s : string) : string :=
  match s with
  | EmptyString => EmptyString
  | String c r => if is_ws c then trimStart r else s
  end.

Fixpoint trimEnd (s : string) : string :=
  match s with
  | EmptyString => EmptyString
  | String c r =>
      match trimEnd r with
      | EmptyString => if is_ws c then EmptyString else String c EmptyString
      | r' => String c r'
      end
  end.

Definition trim (s : string) : string := trimEnd (trimStart s).


(* ===================================================================== *)
(** ** [useWordData]: the lookup made by [fetchWordData] *)
(* ===================================================================== *)

Inductive HookMessage : Type :=
| InvalidWord        (* the "enter a valid word" message *)
| FetchFailed.       (* the error's message, or the "fetch failed" default *)

Definition ui_error (m : HookMessage) : option string :=
  match m with
  | InvalidWord => Some "invalid-word"
  | FetchFailed => Some "fetch-failed"
  end.

(** [try { c } finally { f }] *)
Definition try_finally {A} (c : M A) (f : M unit) : M A :=
  fun w => match c w with
           | (r, w') => match f w' with
                        | (Ok _, w'') => (r, w'')
                        | (Throw e, w'') => (Throw e, w'')
                        end
           end.

Section Hook.
Context {T : Type} (env : Env T) (href : string).

(** [fetchWordData] of the hook.  The state setters, the message and the
    delayed refresh are recorded in the trace; a rejected [sendMessage] lands
    in the [catch], which shows the error and schedules nothing. *)
Definition useWordData_fetchWordData (word : string) : M unit :=
  if String.eqb word "" || String.eqb (trim word) ""
  then log (EvUi (SetError (ui_error InvalidWord)))
  else
    try_finally
      (try_catch
         (log (EvUi (SetIsLoading true)) ;;
          log (EvUi (SetError None)) ;;
          cachedData <- wordCacheStorage_getCachedWord env (toLowerCase word) ;;
          match cachedData with
          | Some d =>
              now <- Date_now ;;
              currentWordStorage_setCurrentWord env (toLowerCase word) d ;;
              log (EvUi (SetCurrentWord (Some (mkCurrent (toLowerCase word) d now))))
          | None =>
              now <- Date_now ;;
              sendMessage env (WORD_DETECTED (toLowerCase word) href now) ;;
              log (EvRefreshLater 1000)
          end)
         (fun _ => log (EvUi (SetError (ui_error FetchFailed)))))
      (log (EvUi (SetIsLoading false))).

End Hook.

(* ===================================================================== *)
(** ** More of the background script, the client and the hook *)
(* ===================================================================== *)

Section MoreHandlers.
Context {T : Type} (env : Env T).

(** The [GET_AUTH_DATA] handler: [sendResponse({ authToken, userId })]. *)
Definition on_GET_AUTH_DATA : M (option JsVal * option JsVal) :=
  authToken <- getAuthToken env ;;
  userId <- getUserId env ;;
  ret (authToken, userId).

(** [ApiClient.put]: [body ? JSON.stringify(body) : undefined]. *)
Definition ApiClient_put (c : ApiClient) (endpoint : string)
    (payload : option AddFlashcardRequest) : M T :=
  ApiClient_request env c endpoint "PUT" payload.

(** [ApiClient.delete] *)
Definition ApiClient_delete (c : ApiClient) (endpoint : string) : M T :=
  ApiClient_request env c endpoint "DELETE" None.

(** [clearCurrentWord] of the hook. *)
Definition useWordData_clearCurrentWord : M unit :=
  try_catch
    (currentWordStorage_clearCurrentWord env ;;
     log (EvUi (SetCurrentWord None)) ;;
     log (EvUi (SetError None)))
    (fun _ => ret tt).

End MoreHandlers.

(* ===================================================================== *)
(** ** Utility functions (on the ASCII range) *)
(* ===================================================================== *)

(** The character class [[a-zA-Z]]. *)
Definition is_letter (c : ascii) : bool :=
  let n := nat_of_ascii c in
  (Nat.leb 65 n && Nat.leb n 90) || (Nat.leb 97 n && Nat.leb n 122).

Fixpoint all_chars (p : ascii -> bool) (s : string) : bool :=
  match s with
  | EmptyString => true
  | String c r => p c && all_chars p r
  end.

(** [/^[a-zA-Z]{1,50}$/.test(s)] *)
Definition wordRegex_test (s : string) : bool :=
  all_chars is_letter s
  && Nat.leb 1 (String.length s) && Nat.leb (String.length s) 50.

(** [isValidEnglishWord]; the argument is a string, so only [!word] can
    reject it before the test. *)
Definition isValidEnglishWord (word : string) : bool :=
  if String.eqb word "" then false
  else wordRegex_test (trim word).

(** [text.slice(0, end)]: a negative [end] counts from the end of the text. *)
Definition slice_to (text : string) (stop : Z) : string :=
  let len := Z.of_nat (String.length text) in
  let e := if Z.ltb stop 0 then Z.max (len + stop) 0 else Z.min stop len in
  String.substring 0 (Z.to_nat e) text.

(** [truncateText] *)
Definition truncateText (text : string) (maxLength : Z) : string :=
  if String.eqb text "" || Z.leb (Z.of_nat (String.length text)) maxLength
  then text
  else trim (slice_to text maxLength) ++ "...".

(** The four quotients of [formatRelativeTime] and the unit it picks; the
    number and the unit are what the returned text is made of. *)
Inductive RelativeTime : Type :=
| DaysAgo (n : Z)
| HoursAgo (n : Z)
| MinutesAgo (n : Z)
| JustNow.

(** [formatRelativeTime], with [now] the value of [Date.now()];
    [Math.floor(x / k)] is [Z.div] for a positive [k]. *)
Definition formatRelativeTime (now timestamp : Z) : RelativeTime :=
  let diff := now - timestamp in
  let seconds := diff / 1000 in
  let minutes := seconds / 60 in
  let hours := minutes / 60 in
  let days := hours / 24 in
  if Z.ltb 0 days then DaysAgo days
  else if Z.ltb 0 hours then HoursAgo hours
  else if Z.ltb 0 minutes then MinutesAgo minutes
  else JustNow.

(** [array.slice(i, j)] for [0 <= i]. *)
Definition slice_from {A} (array : list A) (i j : nat) : list A :=
  take (j - i) (drop i array).

(** The loop of [chunk], [for (i = 0; i < array.length; i += size)], with
    [fuel] iterations allowed: [None] when they do not suffice.  The index
    stays a natural number as long as [size] is not negative. *)
Fixpoint chunk_loop {A} (fuel : nat) (array : list A) (size : nat) (i : nat)
    : option (list (list A)) :=
  if Nat.ltb i (List.length array) then
    match fuel with
    | O => None
    | S fuel' =>
        match chunk_loop fuel' array size (i + size) with
        | Some chunks => Some (slice_from array i (i + size) :: chunks)
        | None => None
        end
    end
  else Some [].

Definition chunk {A} (fuel : nat) (array : list A) (size : nat)
    : option (list (list A)) :=
  chunk_loop fuel array size 0.

(* ===================================================================== *)
(** ** Vocabulary of the properties *)
(* ===================================================================== *)

(** A computation that never rejects. *)
Definition never_throws {A} (c : M A) : Prop :=
  forall w, exists a, fst (c w) = Ok a.

(** When the storage call it makes is rejected, [c] still resolves, to
    [dflt], and the store is as before. *)
Definition degrades_to {T A} (env : Env T) (c : M A) (dflt : A) : Prop :=
  forall w, storage_fault env (storage_ops w) = true ->
            fst (c w) = Ok dflt /\ store (snd (c w)) = store w.

(** The stored property is there and truthy: [!x] is false. *)
Definition present (o : option JsVal) : bool :=
  match o with
  | Some v => truthy v
  | None => false
  end.

(** The store rejects no call. *)
Definition no_faults {T} (env : Env T) : Prop :=
  forall n, storage_fault env n = false.

(** The entry the stored cache holds for [k]. *)
Definition cached_entry (s : gmap string JsVal) (k : string) : option CachedWordData :=
  as_cache (s !! STORAGE_KEYS.WORD_CACHE) !! k.

(** [getAuthData]'s decision, on the three stored values. *)
Definition auth_of (s : gmap string JsVal) : option AuthData :=
  match s !! STORAGE_KEYS.AUTH_TOKEN, s !! STORAGE_KEYS.USER_ID,
        s !! STORAGE_KEYS.USER_EMAIL with
  | Some t, Some u, Some e =>
      if truthy t && truthy u && truthy e then Some (mkAuth t u e) else None
  | _, _, _ => None
  end.

(** A fetch attempt that fails: the transport rejects, or the status is not
    in 200..299. *)
Definition failed {T} (o : FetchOutcome T) : bool :=
  match o with
  | NetFail => true
  | Answer r => negb (ok r)
  end.

Definition always_fails {T} (env : Env T) : Prop :=
  forall n, failed (fetch_result env n) = true.

(** The errors a failed attempt leaves in [lastError]. *)
Definition attempt_error (e : JsError) : Prop :=
  e = NetworkError \/ exists st, e = HttpError st.

(** The error a failed attempt is caught with: [fetch]'s own rejection, or
    the [new Error(`HTTP ${status}: ...`)] thrown for a status outside
    200..299. *)
Definition failure_of {T} (o : FetchOutcome T) : JsError :=
  match o with
  | NetFail => NetworkError
  | Answer resp => HttpError (status resp)
  end.

(** What the retry loop throws when all of its [fuel] iterations fail: the
    error of the last of them, or the [lastError] it started with when there
    is none. *)
Definition last_error {T} (env : Env T) (fuel : nat) (lastError : JsError) (w : World)
    : JsError :=
  match fuel with
  | O => lastError
  | S n => failure_of (fetch_result env (fetches w + n))
  end.

(** The [PUT] request of [addFlashcardToUser]. *)
Definition add_request {T} (env : Env T) (tok uid : JsVal) (flashcardId : string)
    : Request :=
  mkRequest (API_BASE_URL env ++ "/user/add/usingFlashcard") "PUT" (Some tok)
    (Some (mkAddReq uid flashcardId)).

(** The [GET] request of the background's [fetchWordData]. *)
Definition word_request {T} (env : Env T) (word : string) : Request :=
  mkRequest (API_BASE_URL env ++ "/word/" ++ encodeURIComponent env word)
    "GET" None None.

(** Nothing to trim at the front. *)
Definition starts_clean (s : string) : Prop :=
  match s with
  | EmptyString => True
  | String c _ => is_ws c = false
  end.

Arguments STORAGE_KEYS.AUTH_TOKEN : simpl never.
Arguments STORAGE_KEYS.USER_ID : simpl never.
Arguments STORAGE_KEYS.USER_EMAIL : simpl never.

(** Case analysis on the condition of the goal's first [if]. *)
Ltac case_if :=
  match goal with |- context [if ?b then _ else _] => destruct b end.

(** Unfold a [StorageManager] operation and split on its storage call. *)
Ltac run_storage env w :=
  unfold StorageManager_get, StorageManager_getMultiple, StorageManager_set,
    StorageManager_setMultiple, StorageManager_remove,
    StorageManager_removeMultiple, StorageManager_clear,
    try_catch, bind, ret, local_get, local_set, local_remove, local_clear,
    storage_call; cbn beta iota;
  destruct (storage_fault env (storage_ops w)) eqn:?;
  cbn -[pick remove_keys union lookup insert].

(* ===================================================================== *)
(** ** Environments and worlds used in the examples *)
(* ===================================================================== *)

Definition sample_word : WordData :=
  mkWordData "fc-1" (mkWord "w-1" "cat" "a small animal" "feline")
    [mkMeaning "m-1" noun "neko" "kat" "A cat sat." "neko ga suwatta."]
    (mkMedia "md-1" "m-1" ["https://example.org/cat.png"]).

(** A reliable store; every [fetch] is rejected. *)
Definition env_offline : Env WordData :=
  mkEnv WordData (fun _ => false) (fun _ => NetFail) "http://localhost:8000" (fun s => s)
    (fun _ => false).

(** A reliable store; every [fetch] is answered with a 500. *)
Definition env_500 : Env WordData :=
  mkEnv WordData (fun _ => false) (fun _ => Answer (mkResponse 500 None))
    "http://localhost:8000" (fun s => s)
    (fun _ => false).

(** A reliable store; every [fetch] is answered with a 200. *)
Definition env_accepting : Env WordData :=
  mkEnv WordData (fun _ => false) (fun _ => Answer (mkResponse 200 None))
    "http://localhost:8000" (fun s => s)
    (fun _ => false).

(** A reliable store; the first two requests are answered 500, the later
    ones are rejected. *)
Definition env_500_then_down : Env WordData :=
  mkEnv WordData (fun _ => false)
    (fun n => if Nat.ltb n 2 then Answer (mkResponse 500 None) else NetFail)
    "http://localhost:8000" (fun s => s)
    (fun _ => false).

(** A reliable store and no network, as [env_offline], and nobody to take a
    message: every [sendMessage] is rejected. *)
Definition env_no_receiver : Env WordData :=
  mkEnv WordData (fun _ => false) (fun _ => NetFail) "http://localhost:8000" (fun s => s)
    (fun _ => true).

(** A store that rejects every call. *)
Definition env_storage_down : Env WordData :=
  mkEnv WordData (fun _ => true) (fun _ => NetFail) "http://localhost:8000" (fun s => s)
    (fun _ => false).

(** A world with the given store and clock, and nothing done yet. *)
Definition world_of (s : gmap string JsVal) (t : Z) : World := mkWorld s t [].

Definition falsy_store : gmap string JsVal :=
  <[ "a" := JStr "" ]> (<[ "b" := JNum 0 ]> (<[ "c" := JBool false ]> ∅)).

(** An entry cached at time 0, read exactly one hour later. *)
Definition expired_world : World :=
  world_of {[ "wordCache" := JWordCache {[ "cat" := mkCached sample_word (Some 0) ]} ]}
    3600000.

(** A cache holding a fresh entry under the key "example". *)
Definition example_cached : World :=
  world_of {[ "wordCache" := JWordCache {[ "example" := mkCached sample_word (Some 0) ]} ]}
    1000.

Definition signed_in : AuthData := mkAuth (JStr "tok") (JStr "u1") (JStr "a@b.c").

(** What [useAuth] stores for a user without e-mail address:
    [email: authUser.email || ""]. *)
Definition no_email : AuthData := mkAuth (JStr "tok") (JStr "u1") (JStr "").

(** What the [SET_AUTH_DATA] handler leaves in an empty store. *)
Definition token_and_user_only : World :=
  snd (on_SET_AUTH_DATA env_accepting (JStr "tok") (JStr "u1") (world_of ∅ 0)).

Definition signed_out : World :=
  world_of {[ "userEmail" := JStr "a@b.c" ]} 0.

Definition signed_in_world : World :=
  snd (authStorage_setAuthData env_500 signed_in (world_of ∅ 0)).

(* ===================================================================== *)
(** ** Vocabulary and examples for the further properties *)
(* ===================================================================== *)

(** The shape shared by [setCachedWord] and [cleanExpiredCache]: read the
    cache, compute the new one from the time and the old one, write it. *)
Definition cache_update {T} (env : Env T)
    (g : Z -> gmap string CachedWordData -> gmap string CachedWordData) : M unit :=
  stored <- StorageManager_get env STORAGE_KEYS.WORD_CACHE ;;
  let cache := as_cache stored in
  now <- Date_now ;;
  StorageManager_set env STORAGE_KEYS.WORD_CACHE (JWordCache (g now cache)).

(** A store whose first call is rejected and whose later calls succeed. *)
Definition env_first_call_fails : Env WordData :=
  mkEnv WordData (fun n => Nat.eqb n 0) (fun _ => NetFail)
    "http://localhost:8000" (fun s => s)
    (fun _ => false).

(** A cache with one old and one recent entry, read at time 4,000,000. *)
Definition two_entries : World :=
  world_of {[ "wordCache" :=
                JWordCache (<[ "old" := mkCached sample_word (Some 0) ]>
                              {[ "new" := mkCached sample_word (Some 3000000) ]}) ]}
    4000000.

(** The four ways [fetchWordData] ends. *)
Inductive fetch_case (env : Env WordData) (word : string) (w : World)
    : Res (option CachedWordData) * World -> Prop :=
| case_hit d :
    fst (getCachedWordData env word w) = Ok (Some d) ->
    fetch_case env word w (Ok (Some d), emit (EvGet [STORAGE_KEYS.WORD_CACHE]) w)
| case_no_data :
    fst (getCachedWordData env word w) = Ok None ->
    (failed (fetch_result env (fetches w)) = true
     \/ exists resp, fetch_result env (fetches w) = Answer resp /\ body resp = None) ->
    fetch_case env word w
      (Ok None,
       emit (EvFetch (word_request env word)) (emit (EvGet [STORAGE_KEYS.WORD_CACHE]) w))
| case_fetched resp d :
    fst (getCachedWordData env word w) = Ok None ->
    fetch_result env (fetches w) = Answer resp -> ok resp = true -> body resp = Some d ->
    fetch_case env word w
      (Ok (Some (mkCached d None)),
       snd (setCachedWordData env word d
              (emit (EvFetch (word_request env word))
                 (emit (EvGet [STORAGE_KEYS.WORD_CACHE]) w)))).

(** A reliable store; every [fetch] is answered 200 with [sample_word]. *)
Definition env_serving : Env WordData :=
  mkEnv WordData (fun _ => false) (fun _ => Answer (mkResponse 200 (Some sample_word)))
    "http://localhost:8000" (fun s => s)
    (fun _ => false).

(** The world after a failed attempt of [ApiClient.request]: the request was
    sent, and the loop has waited [retryDelay * attempt] unless the attempt
    was the last one. *)
Definition after_failed_attempt (c : ApiClient) (r : Request) (attempt : Z)
    (w : World) : World :=
  let w1 := emit (EvFetch r) w in
  if Z.ltb attempt (retryAttempts c)
  then mkWorld (store w1) (clock w1 + retryDelay c * attempt)
         (EvDelay (retryDelay c * attempt) :: trace w1)
  else w1.

(** The first [j] requests from the [n0]-th on fail. *)
Definition fails_before {T} (env : Env T) (n0 j : nat) : Prop :=
  forall i, (i < j)%nat -> failed (fetch_result env (n0 + i)) = true.

(** What the retry loop may add to the trace: the request [r], and delays. *)
Definition loop_event (r : Request) (e : Event) : Prop :=
  e = EvFetch r \/ exists ms, e = EvDelay ms.

(** The request [ApiClient.request] sends: the [Authorization] header is
    there when the stored token can be read and is truthy. *)
Definition client_request {T} (env : Env T) (c : ApiClient) (endpoint meth : string)
    (payload : option AddFlashcardRequest) (w : World) : Request :=
  mkRequest (baseUrl c ++ endpoint) meth
    (if storage_fault env (storage_ops w) then None
     else or_null (store w !! STORAGE_KEYS.AUTH_TOKEN))
    payload.

(** A reliable store; the first two requests are rejected, the later ones
    answered 200 with [sample_word]. *)
Definition env_flaky : Env WordData :=
  mkEnv WordData (fun _ => false)
    (fun n => if Nat.ltb n 2 then NetFail else Answer (mkResponse 200 (Some sample_word)))
    "http://localhost:8000" (fun s => s)
    (fun _ => false).

(** The character class [\w]: letters, digits and the underscore. *)
Definition is_word_char (c : ascii) : bool :=
  let n := nat_of_ascii c in
  is_letter c || (Nat.leb 48 n && Nat.leb n 57) || Nat.eqb n 95.

Definition close_run (cur : string) : list string :=
  if String.eqb cur "" then [] else [cur].

(** The maximal runs of [\w] characters of a text, left to right; [cur] is
    the run being read. *)
Fixpoint word_runs (cur : string) (s : string) : list string :=
  match s with
  | EmptyString => close_run cur
  | String c r =>
      if is_word_char c then word_runs (cur ++ String c EmptyString) r
      else (close_run cur ++ word_runs EmptyString r)%list
  end.

(** [text.match(/\b[a-zA-Z]+\b/g)]: a match starts and ends at a word
    boundary, so it is a whole run of [\w] characters, and one made of
    letters only. *)
Definition match_words (text : string) : list string :=
  List.filter (all_chars is_letter) (word_runs EmptyString text).

(** [[...new Set(l)]]: the first occurrence of each element, in order. *)
Fixpoint set_of (seen : list string) (l : list string) : list string :=
  match l with
  | [] => []
  | x :: r => if bool_decide (x ∈ seen) then set_of seen r
              else x :: set_of (x :: seen) r
  end.

(** [extractEnglishWords] *)
Definition extractEnglishWords (text : string) : list string :=
  if String.eqb text "" then []
  else set_of [] (List.map toLowerCase (match_words text)).

(** A lowercase letter. *)
Definition is_lower_letter (c : ascii) : bool :=
  let n := nat_of_ascii c in Nat.leb 97 n && Nat.leb n 122.

(** [throttle(func, delay)]: one call of the returned function at time
    [now], with [lastCall] the variable of the closure.  The result tells
    whether [func] was called, and gives the new [lastCall]. *)
Definition throttle_call (delay : Z) (lastCall now : Z) : bool * Z :=
  if Z.geb (now - lastCall) delay then (true, now) else (false, lastCall).

(** The times at which [func] is called, for calls of the throttled function
    at the given times. *)
Fixpoint throttle_calls (delay : Z) (lastCall : Z) (times : list Z) : list Z :=
  match times with
  | [] => []
  | now :: rest =>
      let '(called, lastCall') := throttle_call delay lastCall now in
      if called then now :: throttle_calls delay lastCall' rest
      else throttle_calls delay lastCall' rest
  end.

(** Consecutive elements are at least [delay] apart, the first one at least
    [delay] after [prev]. *)
Fixpoint spaced (delay : Z) (prev : Z) (l : list Z) : Prop :=
  match l with
  | [] => True
  | t :: r => t - prev >= delay /\ spaced delay t r
  end.

(* ===================================================================== *)
(** * Properties *)
(* ===================================================================== *)

(** ** The store primitives *)

Lemma pick_lookup (keys : list string) (s : gmap string JsVal) (k : string) :
  pick keys s !! k = if decide (k ∈ keys) then s !! k else None.
Proof.
  induction keys as [|k' ks IH]; cbn [pick].
  - rewrite lookup_empty. case_decide as H; [by apply elem_of_nil in H | done].
  - assert (pick ks s !! k = if decide (k = k') then pick ks s !! k
                             else if decide (k ∈ k' :: ks) then s !! k else None)
      as Hrest.
    { destruct (decide (k = k')) as [Hk|Hk]; [done|]. rewrite IH.
      repeat case_decide; try done; rewrite elem_of_cons in *; tauto. }
    destruct (decide (k = k')) as [->|Hne].
    + rewrite decide_True by (apply elem_of_cons; by left).
      destruct (s !! k') as [v|] eqn:Hk'; [by rewrite lookup_insert_eq|].
      rewrite IH. by case_decide.
    + destruct (s !! k') as [v|]; [rewrite lookup_insert_ne by done|]; exact Hrest.
Qed.

Lemma pick_one (s : gmap string JsVal) (k : string) : pick [k] s !! k = s !! k.
Proof. rewrite pick_lookup. rewrite decide_True by constructor. reflexivity. Qed.

Lemma remove_keys_lookup (keys : list string) (s : gmap string JsVal) (k : string) :
  remove_keys keys s !! k = if decide (k ∈ keys) then None else s !! k.
Proof.
  induction keys as [|k' ks IH]; cbn [remove_keys].
  - case_decide as H; [by apply elem_of_nil in H | done].
  - destruct (decide (k = k')) as [->|Hne].
    + rewrite lookup_delete_eq. by rewrite decide_True by (apply elem_of_cons; by left).
    + rewrite lookup_delete_ne by done. rewrite IH.
      repeat case_decide; try done; rewrite elem_of_cons in *; tauto.
Qed.

Lemma storage_ops_emit_get keys w :
  storage_ops (emit (EvGet keys) w) = S (storage_ops w).
Proof. reflexivity. Qed.

Section PrimitiveFacts.
Context {T : Type} (env : Env T).

Lemma local_get_ok keys w :
  storage_fault env (storage_ops w) = false ->
  local_get env keys w = (Ok (pick keys (store w)), emit (EvGet keys) w).
Proof.
  intros Hf. unfold local_get, storage_call. rewrite Hf. by destruct w.
Qed.

Lemma local_set_ok data w :
  storage_fault env (storage_ops w) = false ->
  local_set env data w
  = (Ok tt, mkWorld (data ∪ store w) (clock w) (EvSet data :: trace w)).
Proof. intros Hf. unfold local_set, storage_call. by rewrite Hf. Qed.

Lemma local_remove_ok keys w :
  storage_fault env (storage_ops w) = false ->
  local_remove env keys w
  = (Ok tt, mkWorld (remove_keys keys (store w)) (clock w) (EvRemove keys :: trace w)).
Proof. intros Hf. unfold local_remove, storage_call. by rewrite Hf. Qed.

Lemma local_get_fault keys w :
  storage_fault env (storage_ops w) = true ->
  local_get env keys w = (Throw StorageError, emit (EvGet keys) w).
Proof. intros Hf. unfold local_get, storage_call. by rewrite Hf. Qed.

Lemma local_set_fault data w :
  storage_fault env (storage_ops w) = true ->
  local_set env data w = (Throw StorageError, emit (EvSet data) w).
Proof. intros Hf. unfold local_set, storage_call. by rewrite Hf. Qed.

End PrimitiveFacts.

Section StorageManagerFacts.
Context {T : Type} (env : Env T).

Lemma get_never_throws key : never_throws (StorageManager_get env key).
Proof. intros w. run_storage env w; eauto. Qed.

Lemma getMultiple_never_throws keys : never_throws (StorageManager_getMultiple env keys).
Proof. intros w. run_storage env w; eauto. Qed.

Lemma set_never_throws key v : never_throws (StorageManager_set env key v).
Proof. intros w. run_storage env w; eauto. Qed.

Lemma setMultiple_never_throws data : never_throws (StorageManager_setMultiple env data).
Proof. intros w. run_storage env w; eauto. Qed.

Lemma remove_never_throws key : never_throws (StorageManager_remove env key).
Proof. intros w. run_storage env w; eauto. Qed.

Lemma removeMultiple_never_throws keys :
  never_throws (StorageManager_removeMultiple env keys).
Proof. intros w. run_storage env w; eauto. Qed.

Lemma clear_never_throws : never_throws (StorageManager_clear env).
Proof. intros w. run_storage env w; eauto. Qed.


Lemma prop_get_plain (obj : gmap string JsVal) key :
  inherited key = false -> prop_get obj key = obj !! key.
Proof. intros H. unfold prop_get. destruct (obj !! key); [done|]. by rewrite H. Qed.

Lemma prop_get_missing (obj : gmap string JsVal) key :
  obj !! key = None ->
  prop_get obj key = if inherited key then Some (JInherited key) else None.
Proof. intros H. unfold prop_get. by rewrite H. Qed.

(** What a successful [get] resolves to and leaves behind. *)
Lemma get_read key w :
  storage_fault env (storage_ops w) = false ->
  StorageManager_get env key w
  = (Ok (or_null (prop_get (store w) key)), emit (EvGet [key]) w).
Proof.
  intros Hf. run_storage env w; [congruence|].
  unfold prop_get. rewrite pick_one. destruct w; reflexivity.
Qed.

(** For a key that names no member of [Object.prototype] -- the keys of
    [STORAGE_KEYS] are such -- that is the stored value or [null]. *)
Lemma get_ok key w :
  inherited key = false ->
  storage_fault env (storage_ops w) = false ->
  StorageManager_get env key w
  = (Ok (or_null (store w !! key)), emit (EvGet [key]) w).
Proof.
  intros Hkey Hf. by rewrite get_read, prop_get_plain.
Qed.

Lemma get_fault key w :
  storage_fault env (storage_ops w) = true ->
  StorageManager_get env key w = (Ok None, emit (EvGet [key]) w).
Proof. intros Hf. run_storage env w; [reflexivity|congruence]. Qed.

End StorageManagerFacts.

(** C7. No [StorageManager] operation ([get], [getMultiple], [set],
    [setMultiple], [remove], [removeMultiple], [clear]) ever rejects, whatever
    the store does; when the underlying storage call fails, a read resolves
    to [null] (the empty object for [getMultiple]) and a write resolves
    having left the store as it was. *)
Theorem StorageManager_total_safe_defaults {T} (env : Env T)
    (key : string) (keys : list string) (value : JsVal) (data : gmap string JsVal) :
  (never_throws (StorageManager_get env key)
   /\ degrades_to env (StorageManager_get env key) None)
  /\ (never_throws (StorageManager_getMultiple env keys)
      /\ degrades_to env (StorageManager_getMultiple env keys) ∅)
  /\ (never_throws (StorageManager_set env key value)
      /\ degrades_to env (StorageManager_set env key value) tt)
  /\ (never_throws (StorageManager_setMultiple env data)
      /\ degrades_to env (StorageManager_setMultiple env data) tt)
  /\ (never_throws (StorageManager_remove env key)
      /\ degrades_to env (StorageManager_remove env key) tt)
  /\ (never_throws (StorageManager_removeMultiple env keys)
      /\ degrades_to env (StorageManager_removeMultiple env keys) tt)
  /\ (never_throws (StorageManager_clear env)
      /\ degrades_to env (StorageManager_clear env) tt).
Proof.
  repeat split;
    try solve [ apply get_never_throws | apply getMultiple_never_throws
              | apply set_never_throws | apply setMultiple_never_throws
              | apply remove_never_throws | apply removeMultiple_never_throws
              | apply clear_never_throws ];
    run_storage env w; congruence.
Qed.



Lemma StorageManager_total_witness :
  fst (StorageManager_get env_storage_down "a" (world_of falsy_store 0)) = Ok None
  /\ store (snd (StorageManager_set env_storage_down "a" (JNum 7) (world_of falsy_store 0)))
     = falsy_store.
Proof.
  pose proof (StorageManager_total_safe_defaults env_storage_down "a" [] (JNum 7) ∅)
    as [[_ Hget] [_ [[_ Hset] _]]].
  split.
  - apply (Hget (world_of falsy_store 0)). reflexivity.
  - apply (Hset (world_of falsy_store 0)). reflexivity.
Defined.

(** ** The word cache *)

Lemma as_cache_or_null (o : option JsVal) : as_cache (or_null o) = as_cache o.
Proof.
  destruct o as [v|]; [|done]. cbn [or_null].
  destruct (truthy v) eqn:E; [done|]. by destruct v.
Qed.

Lemma lookup_fresh_empty now k : lookup_fresh now ∅ k = None.
Proof. unfold lookup_fresh. by rewrite lookup_empty. Qed.

Lemma assign_entry_lookup word entry cache :
  word ≠ "__proto__" -> assign_entry word entry cache !! word = Some entry.
Proof.
  intros Hw. unfold assign_entry. destruct (cache !! word); [by rewrite lookup_insert_eq|].
  destruct (String.eqb_spec word "__proto__"); [done | by rewrite lookup_insert_eq].
Qed.

Lemma assign_entry_other word other entry cache :
  other ≠ word -> assign_entry word entry cache !! other = cache !! other.
Proof.
  intros Hne. unfold assign_entry.
  destruct (cache !! word); [by rewrite lookup_insert_ne|].
  destruct (String.eqb word "__proto__"); [done | by rewrite lookup_insert_ne].
Qed.

Lemma assign_entry_proto entry cache :
  cache !! "__proto__" = None -> assign_entry "__proto__" entry cache = cache.
Proof. intros H. unfold assign_entry. by rewrite H. Qed.

Section CacheFacts.
Context {T : Type} (env : Env T).

Lemma getCachedWord_run word w :
  wordCacheStorage_getCachedWord env word w
  = (Ok (if storage_fault env (storage_ops w) then None
         else lookup_fresh (clock w) (as_cache (store w !! STORAGE_KEYS.WORD_CACHE)) word),
     emit (EvGet [STORAGE_KEYS.WORD_CACHE]) w).
Proof.
  unfold wordCacheStorage_getCachedWord, bind.
  destruct (storage_fault env (storage_ops w)) eqn:Hf.
  - rewrite get_fault by done. cbn. by rewrite lookup_fresh_empty.
  - rewrite get_ok by done. cbn. by rewrite as_cache_or_null.
Qed.

Lemma setCachedWord_store word data w :
  storage_fault env (S (storage_ops w)) = false ->
  exists cache,
    store (snd (wordCacheStorage_setCachedWord env word data w))
    = <[ STORAGE_KEYS.WORD_CACHE :=
           JWordCache (assign_entry word (mkCached data (Some (clock w))) cache) ]>
        (store w)
    /\ (storage_fault env (storage_ops w) = false ->
        cache = as_cache (store w !! STORAGE_KEYS.WORD_CACHE)).
Proof.
  intros Hset. unfold wordCacheStorage_setCachedWord, bind.
  destruct (storage_fault env (storage_ops w)) eqn:Hf.
  - rewrite get_fault by done. exists ∅. split; [|done].
    unfold Date_now, StorageManager_set, try_catch, local_set, storage_call.
    rewrite storage_ops_emit_get, Hset. cbn -[singletonM union insert lookup].
    by rewrite <- insert_union_singleton_l.
  - rewrite get_ok by done.
    exists (as_cache (store w !! STORAGE_KEYS.WORD_CACHE)). split; [|done].
    unfold Date_now, StorageManager_set, try_catch, local_set, storage_call.
    rewrite storage_ops_emit_get, Hset. cbn -[singletonM union insert lookup].
    by rewrite as_cache_or_null, <- insert_union_singleton_l.
Qed.

Lemma setCachedWord_entry word data w :
  word ≠ "__proto__" ->
  storage_fault env (S (storage_ops w)) = false ->
  cached_entry (store (snd (wordCacheStorage_setCachedWord env word data w))) word
  = Some (mkCached data (Some (clock w))).
Proof.
  intros Hw Hset. destruct (setCachedWord_store word data w Hset) as (cache & -> & _).
  unfold cached_entry. rewrite lookup_insert_eq. cbn [as_cache].
  by apply assign_entry_lookup.
Qed.

End CacheFacts.

Section BackgroundCacheFacts.
Context (env : Env WordData).

Lemma getCachedWordData_run word w :
  getCachedWordData env word w
  = (Ok (if storage_fault env (storage_ops w) then None
         else lookup_fresh (clock w) (as_cache (store w !! STORAGE_KEYS.WORD_CACHE)) word),
     emit (EvGet [STORAGE_KEYS.WORD_CACHE]) w).
Proof.
  unfold getCachedWordData, try_catch, bind, local_get, storage_call.
  destruct (storage_fault env (storage_ops w)) eqn:Hf; cbn -[pick lookup]; [done|].
  rewrite pick_one, as_cache_or_null. by destruct w.
Qed.

Lemma setCachedWordData_run word data w :
  storage_fault env (storage_ops w) = false ->
  storage_fault env (S (storage_ops w)) = false ->
  setCachedWordData env word data w
  = (Ok tt,
     mkWorld
       (<[ STORAGE_KEYS.WORD_CACHE :=
             JWordCache (assign_entry word (mkCached data (Some (clock w)))
                           (as_cache (store w !! STORAGE_KEYS.WORD_CACHE))) ]> (store w))
       (clock w)
       (EvSet {[ STORAGE_KEYS.WORD_CACHE :=
                   JWordCache (assign_entry word (mkCached data (Some (clock w)))
                                 (as_cache (store w !! STORAGE_KEYS.WORD_CACHE))) ]}
          :: EvGet [STORAGE_KEYS.WORD_CACHE] :: trace w)).
Proof.
  intros Hget Hset.
  unfold setCachedWordData, try_catch, bind.
  rewrite local_get_ok by done. unfold Date_now.
  rewrite local_set_ok by (by rewrite storage_ops_emit_get).
  rewrite pick_one, as_cache_or_null, <- insert_union_singleton_l. reflexivity.
Qed.

Lemma setCachedWordData_entry word data w :
  word ≠ "__proto__" ->
  storage_fault env (storage_ops w) = false ->
  storage_fault env (S (storage_ops w)) = false ->
  cached_entry (store (snd (setCachedWordData env word data w))) word
  = Some (mkCached data (Some (clock w))).
Proof.
  intros Hw Hget Hset. rewrite setCachedWordData_run by done.
  unfold cached_entry. cbn [snd store]. rewrite lookup_insert_eq. cbn [as_cache].
  by apply assign_entry_lookup.
Qed.

End BackgroundCacheFacts.

Lemma lookup_fresh_hit now cache k r t0 :
  cache !! k = Some (mkCached r (Some t0)) ->
  now - t0 < CACHE_EXPIRY ->
  lookup_fresh now cache k = Some (mkCached r (Some t0)).
Proof.
  intros Hk Hlt. unfold lookup_fresh, fresh. rewrite Hk. cbn.
  destruct (Z.ltb_spec (now - t0) CACHE_EXPIRY); [done | lia].
Qed.

Lemma lookup_fresh_expired now cache k r t0 :
  cache !! k = Some (mkCached r (Some t0)) ->
  now >= t0 + CACHE_EXPIRY ->
  lookup_fresh now cache k = None.
Proof.
  intros Hk Hge. unfold lookup_fresh, fresh. rewrite Hk. cbn.
  destruct (Z.ltb_spec (now - t0) CACHE_EXPIRY); [lia | done].
Qed.

Example CACHE_EXPIRY_value : CACHE_EXPIRY = 3600000.
Proof. reflexivity. Qed.

(** Reading an entry stamped [t0] at time [t1], with either reader. *)
Lemma read_stamped_entry (env : Env WordData) (k : string) (r : WordData)
    (w1 : World) (t0 : Z) :
  storage_fault env (storage_ops w1) = false ->
  cached_entry (store w1) k = Some (mkCached r (Some t0)) ->
  (clock w1 - t0 < CACHE_EXPIRY ->
     fst (wordCacheStorage_getCachedWord env k w1) = Ok (Some (mkCached r (Some t0)))
     /\ fst (getCachedWordData env k w1) = Ok (Some (mkCached r (Some t0))))
  /\ (clock w1 >= t0 + CACHE_EXPIRY ->
     fst (wordCacheStorage_getCachedWord env k w1) = Ok None
     /\ fst (getCachedWordData env k w1) = Ok None).
Proof.
  intros Hf Hk. rewrite getCachedWord_run, getCachedWordData_run, Hf. cbn [fst].
  unfold cached_entry in Hk. split; intros Ht.
  - by rewrite (lookup_fresh_hit _ _ _ _ _ Hk Ht).
  - by rewrite (lookup_fresh_expired _ _ _ _ _ Hk Ht).
Qed.

(** C1. Cache freshness round trip.  With a store that does not fail and a
    well-typed cache slot, let [setCachedWord k r] (or the background's
    [setCachedWordData k r]) run at time [t0], for a key [k] other than
    ["__proto__"], the one name an assignment does not turn into a property
    (detected words are made of letters).  Any later read of [k], by
    [getCachedWord] or [getCachedWordData], in a world where the entry of [k]
    has not been written since, returns the record [r] (stamped
    [cachedAt = t0]) when [t1 - t0 < 3,600,000] and [null] when
    [t1 >= t0 + 3,600,000]. *)
Theorem cache_freshness_round_trip (env : Env WordData) (k : string)
    (r : WordData) (w0 wset w1 : World) (t0 t1 : Z) :
  no_faults env ->
  cache_slot_typed (store w0) ->
  k ≠ "__proto__" ->
  clock w0 = t0 ->
  wset = snd (wordCacheStorage_setCachedWord env k r w0)
    \/ wset = snd (setCachedWordData env k r w0) ->
  cached_entry (store w1) k = cached_entry (store wset) k ->
  clock w1 = t1 ->
  (t1 - t0 < CACHE_EXPIRY ->
     fst (wordCacheStorage_getCachedWord env k w1) = Ok (Some (mkCached r (Some t0)))
     /\ fst (getCachedWordData env k w1) = Ok (Some (mkCached r (Some t0))))
  /\ (t1 >= t0 + CACHE_EXPIRY ->
     fst (wordCacheStorage_getCachedWord env k w1) = Ok None
     /\ fst (getCachedWordData env k w1) = Ok None).
Proof.
  intros Hnf _ Hk Ht0 Hset Hsame Ht1. subst t0 t1.
  apply read_stamped_entry; [apply Hnf|].
  rewrite Hsame. destruct Hset as [-> | ->].
  - apply setCachedWord_entry; [exact Hk | apply Hnf].
  - apply setCachedWordData_entry; [exact Hk | apply Hnf..].
Qed.

Lemma cache_freshness_round_trip_witness :
  let w0 := world_of ∅ 1000 in
  let wset := snd (wordCacheStorage_setCachedWord env_offline "cat" sample_word w0) in
  fst (wordCacheStorage_getCachedWord env_offline "cat" (at_time 3600999 wset))
    = Ok (Some (mkCached sample_word (Some 1000)))
  /\ fst (wordCacheStorage_getCachedWord env_offline "cat" (at_time 3601000 wset))
    = Ok None.
Proof.
  intros w0 wset. split.
  - refine (proj1 (proj1 (cache_freshness_round_trip env_offline "cat" sample_word
                            w0 wset (at_time 3600999 wset) 1000 3600999
                            _ _ _ _ _ _ _) _)).
    + intros n. reflexivity.
    + exact I.
    + discriminate.
    + reflexivity.
    + left. reflexivity.
    + reflexivity.
    + reflexivity.
    + reflexivity.
  - refine (proj1 (proj2 (cache_freshness_round_trip env_offline "cat" sample_word
                            w0 wset (at_time 3601000 wset) 1000 3601000
                            _ _ _ _ _ _ _) _)).
    + intros n. reflexivity.
    + exact I.
    + discriminate.
    + reflexivity.
    + left. reflexivity.
    + reflexivity.
    + reflexivity.
    + discriminate.
Defined.

(** C8. A cache read writes nothing.  For every word and every world,
    whatever the store does, [getCachedWord] (and the background's
    [getCachedWordData]) makes one [storage.local.get] call and no other:
    the stored values are the same after the read as before.  In particular
    an expired entry is answered with [null] and is still in the stored map
    afterwards. *)
Theorem getCached_leaves_cache_unmodified (env : Env WordData) (word : string)
    (w : World) :
  (snd (wordCacheStorage_getCachedWord env word w)
     = emit (EvGet [STORAGE_KEYS.WORD_CACHE]) w
   /\ snd (getCachedWordData env word w) = emit (EvGet [STORAGE_KEYS.WORD_CACHE]) w)
  /\ (store (snd (wordCacheStorage_getCachedWord env word w)) = store w
      /\ store (snd (getCachedWordData env word w)) = store w)
  /\ (writes (snd (wordCacheStorage_getCachedWord env word w)) = writes w
      /\ writes (snd (getCachedWordData env word w)) = writes w)
  /\ (forall d, cached_entry (store w) word = Some d ->
                fresh (clock w) d = false ->
        (fst (wordCacheStorage_getCachedWord env word w) = Ok None
         /\ cached_entry (store (snd (wordCacheStorage_getCachedWord env word w))) word
            = Some d)
        /\ (fst (getCachedWordData env word w) = Ok None
            /\ cached_entry (store (snd (getCachedWordData env word w))) word = Some d)).
Proof.
  rewrite getCachedWord_run, getCachedWordData_run. cbn [fst snd].
  repeat split; try reflexivity; try assumption;
    destruct (storage_fault env (storage_ops w)); try reflexivity;
    unfold lookup_fresh; unfold cached_entry in *;
    match goal with H : _ !! _ = Some _ |- _ => rewrite H end;
    match goal with H : fresh _ _ = false |- _ => by rewrite H end.
Qed.

Lemma getCached_leaves_cache_unmodified_witness :
  fst (wordCacheStorage_getCachedWord env_offline "cat" expired_world) = Ok None
  /\ cached_entry
       (store (snd (wordCacheStorage_getCachedWord env_offline "cat" expired_world))) "cat"
     = Some (mkCached sample_word (Some 0)).
Proof.
  pose proof (getCached_leaves_cache_unmodified env_offline "cat" expired_world)
    as (_ & _ & _ & H).
  apply (H (mkCached sample_word (Some 0))); reflexivity.
Defined.

(** ** The credential cache *)

Lemma auth_keys_distinct :
  STORAGE_KEYS.AUTH_TOKEN ≠ STORAGE_KEYS.USER_ID
  /\ STORAGE_KEYS.AUTH_TOKEN ≠ STORAGE_KEYS.USER_EMAIL
  /\ STORAGE_KEYS.USER_ID ≠ STORAGE_KEYS.USER_EMAIL.
Proof. repeat split; discriminate. Qed.

Section AuthFacts.
Context {T : Type} (env : Env T).

Lemma getAuthData_run w :
  authStorage_getAuthData env w
  = (Ok (if storage_fault env (storage_ops w) then None else auth_of (store w)),
     emit (EvGet [STORAGE_KEYS.AUTH_TOKEN; STORAGE_KEYS.USER_ID; STORAGE_KEYS.USER_EMAIL]) w).
Proof.
  unfold authStorage_getAuthData, StorageManager_getMultiple, bind, try_catch.
  destruct (storage_fault env (storage_ops w)) eqn:Hf.
  - rewrite local_get_fault by done. cbn. by rewrite lookup_empty.
  - rewrite local_get_ok by done. cbn -[pick lookup].
    rewrite !pick_lookup, !decide_True by set_solver. unfold auth_of.
    destruct (store w !! STORAGE_KEYS.AUTH_TOKEN) as [t|]; [|done].
    destruct (store w !! STORAGE_KEYS.USER_ID) as [u|]; [|done].
    destruct (store w !! STORAGE_KEYS.USER_EMAIL) as [e|]; [|done].
    by destruct (truthy t && truthy u && truthy e).
Qed.

Lemma setAuthData_store c w :
  storage_fault env (storage_ops w) = false ->
  let s' := store (snd (authStorage_setAuthData env c w)) in
  s' !! STORAGE_KEYS.AUTH_TOKEN = Some (token c)
  /\ s' !! STORAGE_KEYS.USER_ID = Some (userId c)
  /\ s' !! STORAGE_KEYS.USER_EMAIL = Some (email c).
Proof.
  intros Hf. unfold authStorage_setAuthData, StorageManager_setMultiple, try_catch.
  rewrite local_set_ok by done. cbn [snd store].
  destruct auth_keys_distinct as (H1 & H2 & H3).
  repeat split; apply lookup_union_Some_l.
  - by rewrite lookup_insert_eq.
  - rewrite lookup_insert_ne by done. by rewrite lookup_insert_eq.
  - do 2 (rewrite lookup_insert_ne by done). by rewrite lookup_insert_eq.
Qed.

Lemma clearAuthData_store w :
  storage_fault env (storage_ops w) = false ->
  let s' := store (snd (authStorage_clearAuthData env w)) in
  s' !! STORAGE_KEYS.AUTH_TOKEN = None
  /\ s' !! STORAGE_KEYS.USER_ID = None
  /\ s' !! STORAGE_KEYS.USER_EMAIL = None.
Proof.
  intros Hf. unfold authStorage_clearAuthData, StorageManager_removeMultiple, try_catch.
  rewrite local_remove_ok by done. cbn [snd store].
  rewrite !remove_keys_lookup, !decide_True by set_solver. done.
Qed.

End AuthFacts.

Lemma auth_of_missing (s : gmap string JsVal) :
  s !! STORAGE_KEYS.AUTH_TOKEN = None
  \/ s !! STORAGE_KEYS.USER_ID = None
  \/ s !! STORAGE_KEYS.USER_EMAIL = None ->
  auth_of s = None.
Proof.
  unfold auth_of. intros [H | [H | H]]; rewrite H; try done.
  - by destruct (s !! STORAGE_KEYS.AUTH_TOKEN).
  - by destruct (s !! STORAGE_KEYS.AUTH_TOKEN), (s !! STORAGE_KEYS.USER_ID).
Qed.

Lemma truthy_JStr (x : string) : truthy (JStr x) = true <-> x ≠ "".
Proof.
  cbn. destruct (String.eqb_spec x ""); cbn; split; intros; congruence.
Qed.

Section AuthRoundTrip.
Context {T : Type} (env : Env T).

Lemma get_after_set c w :
  storage_fault env (storage_ops w) = false ->
  fst (authStorage_getAuthData env (snd (authStorage_setAuthData env c w)))
  = Ok (if storage_fault env (S (storage_ops w)) then None
        else if truthy (token c) && truthy (userId c) && truthy (email c)
             then Some c else None).
Proof.
  intros Hf. rewrite getAuthData_run. cbn [fst].
  destruct (setAuthData_store env c w Hf) as (Ht & Hu & He).
  replace (storage_ops (snd (authStorage_setAuthData env c w))) with (S (storage_ops w)).
  2:{ unfold authStorage_setAuthData, StorageManager_setMultiple, try_catch.
      by rewrite local_set_ok. }
  destruct (storage_fault env (S (storage_ops w))); [done|].
  unfold auth_of. rewrite Ht, Hu, He. by destruct c.
Qed.

Lemma get_after_clear w :
  storage_fault env (storage_ops w) = false ->
  fst (authStorage_getAuthData env (snd (authStorage_clearAuthData env w))) = Ok None.
Proof.
  intros Hf. rewrite getAuthData_run. cbn [fst].
  destruct (clearAuthData_store env w Hf) as (Ht & _).
  rewrite (auth_of_missing _ (or_introl Ht)). by case_if.
Qed.

End AuthRoundTrip.

(** C5, as the code has it.  With the storage calls not failing:
    after [clearAuthData()], [getAuthData()] returns [null]; after
    [setAuthData(c)] with all three fields of [c] truthy (for strings:
    non-empty), [getAuthData()] returns [c].  In every world, failing store
    or not, [getAuthData()] returns [null] when any of the three keys is
    missing, and an object it returns carries all three stored values. *)
Theorem credential_all_or_nothing {T} (env : Env T) (w : World) (c : AuthData) :
  (storage_fault env (storage_ops w) = false ->
     fst (authStorage_getAuthData env (snd (authStorage_clearAuthData env w))) = Ok None)
  /\ (no_faults env ->
      truthy (token c) = true -> truthy (userId c) = true -> truthy (email c) = true ->
      fst (authStorage_getAuthData env (snd (authStorage_setAuthData env c w)))
      = Ok (Some c))
  /\ (store w !! STORAGE_KEYS.AUTH_TOKEN = None
      \/ store w !! STORAGE_KEYS.USER_ID = None
      \/ store w !! STORAGE_KEYS.USER_EMAIL = None ->
      fst (authStorage_getAuthData env w) = Ok None)
  /\ (forall a, fst (authStorage_getAuthData env w) = Ok (Some a) ->
      store w !! STORAGE_KEYS.AUTH_TOKEN = Some (token a)
      /\ store w !! STORAGE_KEYS.USER_ID = Some (userId a)
      /\ store w !! STORAGE_KEYS.USER_EMAIL = Some (email a)).
Proof.
  repeat apply conj.
  - apply get_after_clear.
  - intros Hnf Ht Hu He. rewrite get_after_set by apply Hnf.
    by rewrite Hnf, Ht, Hu, He.
  - intros Hmiss. rewrite getAuthData_run. cbn [fst].
    rewrite auth_of_missing by done. by case_if.
  - intros a. rewrite getAuthData_run. cbn [fst].
    case_if; [done|]. unfold auth_of.
    destruct (store w !! STORAGE_KEYS.AUTH_TOKEN) as [t|]; [|done].
    destruct (store w !! STORAGE_KEYS.USER_ID) as [u|]; [|done].
    destruct (store w !! STORAGE_KEYS.USER_EMAIL) as [e|]; [|done].
    destruct (truthy t && truthy u && truthy e); [|done].
    intros [= <-]. done.
Qed.

Lemma credential_all_or_nothing_witness :
  fst (authStorage_getAuthData env_offline
         (snd (authStorage_clearAuthData env_offline
                 (snd (authStorage_setAuthData env_offline signed_in (world_of ∅ 0))))))
    = Ok None
  /\ fst (authStorage_getAuthData env_offline
            (snd (authStorage_setAuthData env_offline signed_in (world_of ∅ 0))))
     = Ok (Some signed_in)
  /\ fst (authStorage_getAuthData env_offline
            (world_of {[ "authToken" := JStr "tok"; "userId" := JStr "u1" ]} 0))
     = Ok None.
Proof.
  split; [|split].
  - apply (credential_all_or_nothing env_offline
             (snd (authStorage_setAuthData env_offline signed_in (world_of ∅ 0)))
             signed_in).
    reflexivity.
  - apply (credential_all_or_nothing env_offline (world_of ∅ 0) signed_in);
      [intros n|..]; reflexivity.
  - apply (credential_all_or_nothing env_offline
             (world_of {[ "authToken" := JStr "tok"; "userId" := JStr "u1" ]} 0)
             signed_in).
    right. right. reflexivity.
Defined.

(** C5 as stated fails: a credential with an empty field is written in full
    and read back as [null]. *)
Lemma credential_round_trip_counterexample :
  fst (authStorage_getAuthData env_offline
         (snd (authStorage_setAuthData env_offline no_email (world_of ∅ 0))))
  <> Ok (Some no_email).
Proof. vm_compute. discriminate. Qed.

(** C10. A credential with an empty-string field is stored whole and read as
    absent.  After a [setAuthData(c)] the store accepted, with [c] made of the
    strings [t], [u], [e]: if one of them is empty, [getAuthData()] returns
    [null] although all three keys are present; [getAuthData()] returns [c]
    only if all three are non-empty, and it does so whenever they are and the
    read is not rejected. *)
Theorem empty_credential_fields_read_as_absent {T} (env : Env T) (w : World)
    (t u e : string) :
  storage_fault env (storage_ops w) = false ->
  let c := mkAuth (JStr t) (JStr u) (JStr e) in
  let w' := snd (authStorage_setAuthData env c w) in
  (t = "" \/ u = "" \/ e = "" ->
     fst (authStorage_getAuthData env w') = Ok None
     /\ store w' !! STORAGE_KEYS.AUTH_TOKEN = Some (JStr t)
     /\ store w' !! STORAGE_KEYS.USER_ID = Some (JStr u)
     /\ store w' !! STORAGE_KEYS.USER_EMAIL = Some (JStr e))
  /\ (fst (authStorage_getAuthData env w') = Ok (Some c) ->
      t ≠ "" /\ u ≠ "" /\ e ≠ "")
  /\ (storage_fault env (S (storage_ops w)) = false ->
      t ≠ "" /\ u ≠ "" /\ e ≠ "" ->
      fst (authStorage_getAuthData env w') = Ok (Some c)).
Proof.
  intros Hf c w'. subst w'. rewrite get_after_set by done.
  destruct (setAuthData_store env c w Hf) as (Ht & Hu & He).
  cbn [token userId email c] in *.
  repeat apply conj.
  - intros Hempty. split; [|done].
    destruct (storage_fault env (S (storage_ops w))); [done|].
    destruct Hempty as [-> | [-> | ->]]; cbn [truthy String.eqb negb andb];
      rewrite ?andb_false_r; done.
  - destruct (storage_fault env (S (storage_ops w))); [done|].
    destruct (truthy (JStr t)) eqn:Et; [|done].
    destruct (truthy (JStr u)) eqn:Eu; [|done].
    destruct (truthy (JStr e)) eqn:Ee; [|done].
    intros _. by rewrite <- !truthy_JStr.
  - intros -> (Ht' & Hu' & He').
    apply truthy_JStr in Ht', Hu', He'. by rewrite Ht', Hu', He'.
Qed.

Lemma empty_credential_fields_read_as_absent_witness :
  let w' := snd (authStorage_setAuthData env_offline no_email (world_of ∅ 0)) in
  fst (authStorage_getAuthData env_offline w') = Ok None
  /\ store w' !! STORAGE_KEYS.AUTH_TOKEN = Some (JStr "tok")
  /\ store w' !! STORAGE_KEYS.USER_ID = Some (JStr "u1")
  /\ store w' !! STORAGE_KEYS.USER_EMAIL = Some (JStr "").
Proof.
  refine (proj1 (empty_credential_fields_read_as_absent env_offline (world_of ∅ 0)
                   "tok" "u1" "" _) _).
  - reflexivity.
  - right. right. reflexivity.
Defined.

(** ** The mutation gateway *)

Section GatewayFacts.
Context {T : Type} (env : Env T).

Lemma getAuthToken_run w :
  getAuthToken env w
  = (Ok (if storage_fault env (storage_ops w) then None
         else or_null (store w !! STORAGE_KEYS.AUTH_TOKEN)),
     emit (EvGet [STORAGE_KEYS.AUTH_TOKEN]) w).
Proof.
  unfold getAuthToken, try_catch, bind.
  destruct (storage_fault env (storage_ops w)) eqn:Hf.
  - by rewrite local_get_fault.
  - rewrite local_get_ok by done. cbn -[pick lookup]. by rewrite pick_one.
Qed.

Lemma getUserId_run w :
  getUserId env w
  = (Ok (if storage_fault env (storage_ops w) then None
         else or_null (store w !! STORAGE_KEYS.USER_ID)),
     emit (EvGet [STORAGE_KEYS.USER_ID]) w).
Proof.
  unfold getUserId, try_catch, bind.
  destruct (storage_fault env (storage_ops w)) eqn:Hf.
  - by rewrite local_get_fault.
  - rewrite local_get_ok by done. cbn -[pick lookup]. by rewrite pick_one.
Qed.

(** The whole of [addFlashcardToUser], case by case. *)
Lemma addFlashcardToUser_run flashcardId w :
  let w2 := emit (EvGet [STORAGE_KEYS.USER_ID])
              (emit (EvGet [STORAGE_KEYS.AUTH_TOKEN]) w) in
  addFlashcardToUser env flashcardId w
  = match (if storage_fault env (storage_ops w) then None
           else or_null (store w !! STORAGE_KEYS.AUTH_TOKEN)),
          (if storage_fault env (S (storage_ops w)) then None
           else or_null (store w !! STORAGE_KEYS.USER_ID)) with
    | Some tok, Some uid =>
        (Ok (negb (failed (fetch_result env (fetches w)))),
         emit (EvFetch (add_request env tok uid flashcardId)) w2)
    | _, _ => (Ok false, w2)
    end.
Proof.
  intros w2. unfold addFlashcardToUser, try_catch, bind.
  rewrite getAuthToken_run, getUserId_run. cbn [store emit].
  rewrite storage_ops_emit_get.
  generalize (if storage_fault env (storage_ops w) then None
              else or_null (store w !! STORAGE_KEYS.AUTH_TOKEN)).
  generalize (if storage_fault env (S (storage_ops w)) then None
              else or_null (store w !! STORAGE_KEYS.USER_ID)).
  intros [uid|] [tok|]; try reflexivity.
  unfold fetch, add_request. change (fetches (emit _ (emit _ w))) with (fetches w).
  destruct (fetch_result env (fetches w)) as [|resp]; [reflexivity|].
  cbn [failed]. by destruct (ok resp).
Qed.

End GatewayFacts.

Lemma or_null_present (o : option JsVal) :
  present o = false -> or_null o = None.
Proof. destruct o as [v|]; cbn; [|done]. by intros ->. Qed.

Lemma or_null_truthy (o : option JsVal) :
  present o = true -> exists v, o = Some v /\ or_null o = Some v.
Proof. destruct o as [v|]; cbn; [|done]. intros ->. eauto. Qed.

(** C3, as the code has it.  The gateway is gated on the stored token and
    user id (not on the e-mail address): if either is missing or falsy,
    [addFlashcardToUser] makes its two storage reads and nothing else -- no
    [fetch] -- and resolves to [false], whatever the store and the network
    do. *)
Theorem mutation_gated_on_token_and_user {T} (env : Env T) (w : World)
    (flashcardId : string) :
  present (store w !! STORAGE_KEYS.AUTH_TOKEN) = false
    \/ present (store w !! STORAGE_KEYS.USER_ID) = false ->
  fst (addFlashcardToUser env flashcardId w) = Ok false
  /\ fetches (snd (addFlashcardToUser env flashcardId w)) = fetches w
  /\ store (snd (addFlashcardToUser env flashcardId w)) = store w
  /\ trace (snd (addFlashcardToUser env flashcardId w))
     = EvGet [STORAGE_KEYS.USER_ID] :: EvGet [STORAGE_KEYS.AUTH_TOKEN] :: trace w.
Proof.
  intros Hmiss. rewrite addFlashcardToUser_run.
  assert ((if storage_fault env (storage_ops w) then None
           else or_null (store w !! STORAGE_KEYS.AUTH_TOKEN)) = None
          \/ (if storage_fault env (S (storage_ops w)) then None
              else or_null (store w !! STORAGE_KEYS.USER_ID)) = None) as [-> | ->].
  { destruct Hmiss as [H | H]; [left | right];
      rewrite (or_null_present _ H); by case_if. }
  - done.
  - by case_if.
Qed.

Lemma mutation_gated_on_token_and_user_witness :
  fst (addFlashcardToUser env_accepting "fc-1" signed_out) = Ok false
  /\ fetches (snd (addFlashcardToUser env_accepting "fc-1" signed_out)) = 0%nat.
Proof.
  pose proof (mutation_gated_on_token_and_user env_accepting signed_out "fc-1"
                (or_introl eq_refl)) as (H1 & H2 & _).
  split; [exact H1 | exact H2].
Defined.

(** C3 as stated fails: with the token and the user id stored but no e-mail
    address, [getAuthData()] is [null], yet the gateway sends its request
    (and here succeeds). *)
Lemma mutation_gate_counterexample :
  fst (authStorage_getAuthData env_accepting token_and_user_only) = Ok None
  /\ fst (addFlashcardToUser env_accepting "fc-1" token_and_user_only) = Ok true
  /\ fetches (snd (addFlashcardToUser env_accepting "fc-1" token_and_user_only))
     <> fetches token_and_user_only.
Proof. vm_compute. repeat split; discriminate. Qed.

(** C6. The mutation is attempted once.  With the token and the user id
    stored and the store answering its two reads, [addFlashcardToUser] sends
    exactly one request, the [PUT]; it resolves to [true] when that request
    is answered with a 2xx status, and to [false] -- without another
    attempt -- when the request is rejected or answered otherwise. *)
Theorem mutation_single_attempt {T} (env : Env T) (w : World)
    (flashcardId : string) (tok uid : JsVal) :
  storage_fault env (storage_ops w) = false ->
  storage_fault env (S (storage_ops w)) = false ->
  store w !! STORAGE_KEYS.AUTH_TOKEN = Some tok -> truthy tok = true ->
  store w !! STORAGE_KEYS.USER_ID = Some uid -> truthy uid = true ->
  fetches (snd (addFlashcardToUser env flashcardId w)) = S (fetches w)
  /\ trace (snd (addFlashcardToUser env flashcardId w))
     = EvFetch (add_request env tok uid flashcardId)
         :: EvGet [STORAGE_KEYS.USER_ID] :: EvGet [STORAGE_KEYS.AUTH_TOKEN] :: trace w
  /\ fst (addFlashcardToUser env flashcardId w)
     = Ok (negb (failed (fetch_result env (fetches w)))).
Proof.
  intros Hf1 Hf2 Htok Ht Huid Hu. rewrite addFlashcardToUser_run.
  rewrite Hf1, Hf2, Htok, Huid. cbn [or_null]. rewrite Ht, Hu. done.
Qed.

Lemma mutation_single_attempt_witness :
  fetches (snd (addFlashcardToUser env_500 "fc-1" signed_in_world)) = 1%nat
  /\ fst (addFlashcardToUser env_500 "fc-1" signed_in_world) = Ok false.
Proof.
  pose proof (mutation_single_attempt env_500 signed_in_world "fc-1"
                (JStr "tok") (JStr "u1")
                eq_refl eq_refl eq_refl eq_refl eq_refl eq_refl) as (H1 & _ & H3).
  split; [exact H1 | exact H3].
Defined.

(** ** Resolution: the background's single attempt and the client's retries *)

Section RetryFacts.
Context {T : Type} (env : Env T).

Lemma failure_of_attempt_error (o : FetchOutcome T) : attempt_error (failure_of o).
Proof. destruct o; [by left | right; eauto]. Qed.

(** One failed iteration: a request, possibly a delay, and on to the next
    iteration with the attempt's error. *)
Lemma failed_attempt_step (c : ApiClient) (r : Request) (fuel : nat)
    (attempt : Z) (lastError : JsError) (w : World) :
  failed (fetch_result env (fetches w)) = true ->
  exists w1,
    request_loop env c r (S fuel) attempt lastError w
    = request_loop env c r fuel (attempt + 1)
        (failure_of (fetch_result env (fetches w))) w1
    /\ fetches w1 = S (fetches w)
    /\ store w1 = store w.
Proof.
  intros Hfail. cbn [request_loop]. unfold try_catch, bind, fetch, delay, ret.
  destruct (fetch_result env (fetches w)) as [|resp]; cbn [failure_of].
  - destruct (Z.ltb attempt (retryAttempts c));
      eexists; (split; [reflexivity|]); by split.
  - cbn [failed] in Hfail. rewrite Hfail. unfold throw.
    destruct (Z.ltb attempt (retryAttempts c));
      eexists; (split; [reflexivity|]); by split.
Qed.

(** Against a remote that always fails, the retry loop uses every iteration
    it is given, writes nothing, and ends by throwing the last error. *)
Lemma request_loop_all_fail (c : ApiClient) (r : Request) (fuel : nat) :
  always_fails env ->
  forall (attempt : Z) (lastError : JsError) (w : World),
  exists w',
    request_loop env c r fuel attempt lastError w
    = (Throw (last_error env fuel lastError w), w')
    /\ fetches w' = (fetches w + fuel)%nat
    /\ store w' = store w.
Proof.
  intros Hall. induction fuel as [|fuel IH]; intros attempt lastError w.
  - exists w. cbn. repeat split. lia.
  - destruct (failed_attempt_step c r fuel attempt lastError w (Hall _))
      as (w1 & -> & Hn1 & Hs1).
    destruct (IH (attempt + 1) (failure_of (fetch_result env (fetches w))) w1)
      as (w' & Hrun & Hn & Hs).
    exists w'. repeat split; [| lia | congruence].
    rewrite Hrun. do 2 f_equal. unfold last_error. destruct fuel as [|n].
    + by rewrite Nat.add_0_r.
    + rewrite Hn1. do 2 f_equal. lia.
Qed.

Lemma ApiClient_request_last_error (endpoint meth : string)
    (payload : option AddFlashcardRequest) (w : World) :
  always_fails env ->
  exists w',
    ApiClient_request env (apiClient env) endpoint meth payload w
    = (Throw (failure_of (fetch_result env (fetches w + 2))), w')
    /\ fetches w' = (fetches w + 3)%nat
    /\ store w' = store w.
Proof.
  intros Hall. unfold ApiClient_request, bind.
  rewrite getAuthToken_run.
  match goal with |- context [request_loop env ?c ?r ?f ?a ?l ?w0] =>
    destruct (request_loop_all_fail c r 3 Hall a l w0) as (w' & Hrun & Hn & Hs)
  end.
  exists w'. repeat split; [exact Hrun | exact Hn | exact Hs].
Qed.

Lemma ApiClient_request_all_fail (endpoint meth : string)
    (payload : option AddFlashcardRequest) (w : World) :
  always_fails env ->
  exists e w',
    ApiClient_request env (apiClient env) endpoint meth payload w = (Throw e, w')
    /\ fetches w' = (fetches w + 3)%nat
    /\ store w' = store w
    /\ attempt_error e.
Proof.
  intros Hall.
  destruct (ApiClient_request_last_error endpoint meth payload w Hall)
    as (w' & Hrun & Hn & Hs).
  eexists _, w'. repeat split; [exact Hrun | exact Hn | exact Hs |].
  apply failure_of_attempt_error.
Qed.

Lemma wordApi_getWord_all_fail (word : string) (w : World) :
  always_fails env ->
  exists e w',
    wordApi_getWord env word w = (Throw e, w')
    /\ fetches w' = (fetches w + 3)%nat
    /\ store w' = store w
    /\ attempt_error e.
Proof. apply ApiClient_request_all_fail. Qed.

Lemma wordApi_getWord_last_error (word : string) (w : World) :
  always_fails env ->
  exists w',
    wordApi_getWord env word w
    = (Throw (failure_of (fetch_result env (fetches w + 2))), w')
    /\ fetches w' = (fetches w + 3)%nat
    /\ store w' = store w.
Proof. apply ApiClient_request_last_error. Qed.

(** The client's [addFlashcard] helper, which nothing calls, goes through the
    same loop: unlike the gateway it would repeat a failed mutation. *)
Lemma wordApi_addFlashcard_all_fail (userId : JsVal) (flashcardId : string) (w : World) :
  always_fails env ->
  exists e w',
    wordApi_addFlashcard env userId flashcardId w = (Throw e, w')
    /\ fetches w' = (fetches w + 3)%nat
    /\ store w' = store w
    /\ attempt_error e.
Proof. apply ApiClient_request_all_fail. Qed.

End RetryFacts.

Section ResolutionFacts.
Context (env : Env WordData).

(** A cache miss followed by a failed attempt: one read, one request, [null]. *)
Lemma fetchWordData_failed word w :
  fst (getCachedWordData env word w) = Ok None ->
  failed (fetch_result env (fetches w)) = true ->
  fetchWordData env word w
  = (Ok None,
     emit (EvFetch (word_request env word)) (emit (EvGet [STORAGE_KEYS.WORD_CACHE]) w)).
Proof.
  intros Hmiss Hfail. unfold fetchWordData, try_catch, bind.
  rewrite getCachedWordData_run in *. cbn [fst] in Hmiss.
  injection Hmiss as ->. unfold fetch.
  change (fetches (emit _ w)) with (fetches w).
  destruct (fetch_result env (fetches w)) as [|resp]; [reflexivity|].
  cbn [failed] in Hfail. by rewrite Hfail.
Qed.

Lemma on_WORD_DETECTED_failed word w :
  fst (getCachedWordData env word w) = Ok None ->
  failed (fetch_result env (fetches w)) = true ->
  on_WORD_DETECTED env word w
  = (Ok tt,
     emit (EvFetch (word_request env word)) (emit (EvGet [STORAGE_KEYS.WORD_CACHE]) w)).
Proof.
  intros Hmiss Hfail. unfold on_WORD_DETECTED, bind.
  by rewrite fetchWordData_failed.
Qed.

End ResolutionFacts.

(** The client's back-off: [retryDelay * attempt] after the first and the
    second failed attempt, none after the third. *)
Example wordApi_getWord_backoff :
  List.filter (fun e => negb (is_storage_op e))
    (trace (snd (wordApi_getWord env_500 "cat" (world_of ∅ 0))))
  = [ EvFetch (word_request env_500 "cat"); EvDelay 2000;
      EvFetch (word_request env_500 "cat"); EvDelay 1000;
      EvFetch (word_request env_500 "cat") ]
  /\ fst (wordApi_getWord env_500 "cat" (world_of ∅ 0)) = Throw (HttpError 500).
Proof. split; reflexivity. Qed.

(** C2, as the code has it.  When every fetch fails (rejected, or answered
    with a status outside 200..299) and the cache has no fresh entry for the
    word, the background resolution ([WORD_DETECTED] handler, [fetchWordData])
    makes exactly one attempt: [fetchWordData] resolves to [null], the handler
    ends without writing, and the store -- the [currentWord] slot included --
    is as before.  The three attempts are those of [ApiClient.request]:
    [wordApi.getWord] makes exactly three requests -- the requests numbered
    [fetches w], [fetches w + 1] and [fetches w + 2] -- then throws the error
    of the last one, and writes nothing either. *)
Theorem resolution_failure_frame (env : Env WordData) (word : string) (w : World) :
  always_fails env ->
  fst (getCachedWordData env word w) = Ok None ->
  (fst (fetchWordData env word w) = Ok None
   /\ fst (on_WORD_DETECTED env word w) = Ok tt
   /\ fetches (snd (on_WORD_DETECTED env word w)) = S (fetches w)
   /\ store (snd (on_WORD_DETECTED env word w)) = store w)
  /\ (fst (wordApi_getWord env word w)
        = Throw (failure_of (fetch_result env (fetches w + 2)))
      /\ fetches (snd (wordApi_getWord env word w)) = (fetches w + 3)%nat
      /\ store (snd (wordApi_getWord env word w)) = store w).
Proof.
  intros Hall Hmiss. split.
  - rewrite fetchWordData_failed, on_WORD_DETECTED_failed by (done || apply Hall).
    done.
  - destruct (wordApi_getWord_last_error env word w Hall) as (w' & -> & Hn & Hs).
    done.
Qed.

Lemma env_offline_always_fails : always_fails env_offline.
Proof. intros n. reflexivity. Qed.

Lemma env_500_then_down_always_fails : always_fails env_500_then_down.
Proof.
  intros n. unfold env_500_then_down. cbn [fetch_result].
  destruct (Nat.ltb n 2); reflexivity.
Qed.

Lemma resolution_failure_frame_witness :
  let w := world_of {[ "currentWord" := JStr "previous" ]} 0 in
  (fetches (snd (on_WORD_DETECTED env_offline "cat" w)) = 1%nat
   /\ store (snd (on_WORD_DETECTED env_offline "cat" w)) !! "currentWord"
      = Some (JStr "previous"))
  /\ fetches (snd (wordApi_getWord env_offline "cat" w)) = 3%nat
  /\ fst (wordApi_getWord env_500_then_down "cat" w) = Throw NetworkError.
Proof.
  intros w.
  pose proof (resolution_failure_frame env_offline "cat" w
                env_offline_always_fails eq_refl)
    as ((_ & _ & Hn & Hs) & (_ & Hn3 & _)).
  pose proof (resolution_failure_frame env_500_then_down "cat" w
                env_500_then_down_always_fails eq_refl)
    as (_ & (He & _)).
  split; [split|split]; [exact Hn | rewrite Hs; reflexivity | exact Hn3 | exact He].
Defined.

(** C2 as stated fails: the background resolution of a word whose fetch
    always fails makes one attempt, not three. *)
Lemma resolution_retry_counterexample :
  always_fails env_offline
  /\ fetches (snd (on_WORD_DETECTED env_offline "cat" (world_of ∅ 0))) = 1%nat
  /\ fetches (snd (on_WORD_DETECTED env_offline "cat" (world_of ∅ 0))) <> 3%nat.
Proof.
  split; [exact env_offline_always_fails|]. vm_compute. split; [reflexivity | discriminate].
Qed.

(** ** Key normalisation *)


Lemma is_ws_lower (c : ascii) : is_ws (lower c) = is_ws c.
Proof. destruct c as [[] [] [] [] [] [] [] []]; reflexivity. Qed.


Lemma trimStart_lower (s : string) :
  trimStart (toLowerCase s) = toLowerCase (trimStart s).
Proof.
  induction s as [|c r IH]; cbn; [done|].
  rewrite is_ws_lower. by destruct (is_ws c).
Qed.

Lemma trimEnd_lower (s : string) :
  trimEnd (toLowerCase s) = toLowerCase (trimEnd s).
Proof.
  induction s as [|c r IH]; cbn; [done|].
  rewrite IH, is_ws_lower. destruct (trimEnd r); cbn; [|done].
  by destruct (is_ws c).
Qed.

Lemma trim_lower (s : string) : trim (toLowerCase s) = toLowerCase (trim s).
Proof. unfold trim. by rewrite trimStart_lower, trimEnd_lower. Qed.

Lemma trimEnd_idem (s : string) : trimEnd (trimEnd s) = trimEnd s.
Proof.
  induction s as [|c r IH]; cbn; [done|].
  destruct (trimEnd r) as [|a b] eqn:Hr.
  - destruct (is_ws c) eqn:Hc; cbn; [done|]. by rewrite Hc.
  - cbn [trimEnd] in *. by rewrite IH.
Qed.

Lemma trimStart_clean (s : string) : starts_clean (trimStart s).
Proof.
  induction s as [|c r IH]; cbn; [done|].
  destruct (is_ws c) eqn:Hc; [done|]. exact Hc.
Qed.

Lemma trimStart_of_clean (s : string) : starts_clean s -> trimStart s = s.
Proof. destruct s as [|c r]; cbn; [done|]. by intros ->. Qed.

Lemma trimEnd_clean (s : string) : starts_clean s -> starts_clean (trimEnd s).
Proof.
  destruct s as [|c r]; cbn; [done|]. intros Hc.
  destruct (trimEnd r); [by rewrite Hc | done].
Qed.

Lemma trim_idem (s : string) : trim (trim s) = trim s.
Proof.
  unfold trim.
  rewrite (trimStart_of_clean (trimEnd (trimStart s)))
    by apply trimEnd_clean, trimStart_clean.
  apply trimEnd_idem.
Qed.


Lemma eqb_empty_lower (s : string) :
  String.eqb (toLowerCase s) "" = String.eqb s "".
Proof. by destruct s. Qed.




(** Both spellings find the entry and make it the current word. *)
Example fetchWordData_Example_hits :
  store (snd (useWordData_fetchWordData env_offline "" "Example" example_cached))
    !! "currentWord"
  = Some (JCurrentWord (mkCurrent "example" (mkCached sample_word (Some 0)) 1000)).
Proof. reflexivity. Qed.


(* ===================================================================== *)
(** * Further properties of the code *)
(* ===================================================================== *)

(** ** The storage wrapper: writes followed by reads *)

Section StorageRoundTrips.
Context {T : Type} (env : Env T).

Lemma set_ok key v w :
  storage_fault env (storage_ops w) = false ->
  StorageManager_set env key v w
  = (Ok tt, mkWorld (<[ key := v ]> (store w)) (clock w)
              (EvSet {[ key := v ]} :: trace w)).
Proof.
  intros Hf. unfold StorageManager_set, try_catch.
  rewrite local_set_ok by done. by rewrite <- insert_union_singleton_l.
Qed.

Lemma setMultiple_ok data w :
  storage_fault env (storage_ops w) = false ->
  StorageManager_setMultiple env data w
  = (Ok tt, mkWorld (data ∪ store w) (clock w) (EvSet data :: trace w)).
Proof.
  intros Hf. unfold StorageManager_setMultiple, try_catch.
  by rewrite local_set_ok.
Qed.

Lemma removeMultiple_ok keys w :
  storage_fault env (storage_ops w) = false ->
  StorageManager_removeMultiple env keys w
  = (Ok tt, mkWorld (remove_keys keys (store w)) (clock w)
              (EvRemove keys :: trace w)).
Proof.
  intros Hf. unfold StorageManager_removeMultiple, try_catch.
  by rewrite local_remove_ok.
Qed.

Lemma remove_ok key w :
  storage_fault env (storage_ops w) = false ->
  StorageManager_remove env key w
  = (Ok tt, mkWorld (delete key (store w)) (clock w) (EvRemove [key] :: trace w)).
Proof.
  intros Hf. unfold StorageManager_remove, try_catch.
  by rewrite local_remove_ok.
Qed.

Lemma clear_ok w :
  storage_fault env (storage_ops w) = false ->
  StorageManager_clear env w = (Ok tt, mkWorld ∅ (clock w) (EvClear :: trace w)).
Proof.
  intros Hf. unfold StorageManager_clear, try_catch, local_clear, storage_call.
  by rewrite Hf.
Qed.

Lemma getMultiple_ok keys w :
  storage_fault env (storage_ops w) = false ->
  StorageManager_getMultiple env keys w
  = (Ok (pick keys (store w)), emit (EvGet keys) w).
Proof.
  intros Hf. unfold StorageManager_getMultiple, try_catch.
  by rewrite local_get_ok.
Qed.

End StorageRoundTrips.

(** X1. Writing then reading one key.  With the two storage calls accepted,
    [get(key)] after [set(key, v)] gives [v] back when [v] is truthy and
    [null] when it is falsy, and [get] of any other key answers as before
    the write. *)
Theorem set_then_get {T} (env : Env T) (w : World) (key other : string) (v : JsVal) :
  storage_fault env (storage_ops w) = false ->
  storage_fault env (S (storage_ops w)) = false ->
  fst (StorageManager_get env key (snd (StorageManager_set env key v w)))
    = Ok (if truthy v then Some v else None)
  /\ (other ≠ key ->
      fst (StorageManager_get env other (snd (StorageManager_set env key v w)))
      = fst (StorageManager_get env other w)).
Proof.
  intros Hf1 Hf2. rewrite set_ok by done. cbn [snd].
  rewrite !get_read by done. cbn [fst store]. unfold prop_get. split.
  - by rewrite lookup_insert_eq.
  - intros Hne. by rewrite lookup_insert_ne.
Qed.

Lemma set_then_get_witness :
  fst (StorageManager_get env_offline "k"
         (snd (StorageManager_set env_offline "k" (JNum 7) (world_of falsy_store 0))))
    = Ok (Some (JNum 7))
  /\ fst (StorageManager_get env_offline "k"
            (snd (StorageManager_set env_offline "k" (JNum 0) (world_of falsy_store 0))))
     = Ok None.
Proof.
  split.
  - exact (proj1 (set_then_get env_offline (world_of falsy_store 0) "k" "a" (JNum 7)
                    eq_refl eq_refl)).
  - exact (proj1 (set_then_get env_offline (world_of falsy_store 0) "k" "a" (JNum 0)
                    eq_refl eq_refl)).
Defined.

(** X2. Removing and clearing.  With the storage calls accepted: after
    [remove(key)], after [removeMultiple(keys)] for every listed key, and
    after [clear()] for every key, [get(key)] reads a key that is missing: it
    gives [null], unless the key names a member of [Object.prototype], which
    is what the read then finds.  The keys not removed read as before. *)
Theorem remove_and_clear_then_get {T} (env : Env T) (w : World)
    (key other : string) (keys : list string) :
  storage_fault env (storage_ops w) = false ->
  storage_fault env (S (storage_ops w)) = false ->
  fst (StorageManager_get env key (snd (StorageManager_remove env key w)))
    = Ok (if inherited key then Some (JInherited key) else None)
  /\ (other ≠ key ->
      fst (StorageManager_get env other (snd (StorageManager_remove env key w)))
      = fst (StorageManager_get env other w))
  /\ (key ∈ keys ->
      fst (StorageManager_get env key (snd (StorageManager_removeMultiple env keys w)))
      = Ok (if inherited key then Some (JInherited key) else None))
  /\ (key ∉ keys ->
      fst (StorageManager_get env key (snd (StorageManager_removeMultiple env keys w)))
      = fst (StorageManager_get env key w))
  /\ fst (StorageManager_get env key (snd (StorageManager_clear env w)))
     = Ok (if inherited key then Some (JInherited key) else None).
Proof.
  intros Hf1 Hf2.
  rewrite remove_ok, removeMultiple_ok, clear_ok by done. cbn [snd].
  rewrite !get_read by done. cbn [fst store].
  assert (forall obj : gmap string JsVal, obj !! key = None ->
            or_null (prop_get obj key)
            = if inherited key then Some (JInherited key) else None) as Hmissing.
  { intros obj Hnone. rewrite prop_get_missing by done. by destruct (inherited key). }
  repeat apply conj.
  - by rewrite Hmissing by apply lookup_delete_eq.
  - intros Hne. unfold prop_get. by rewrite lookup_delete_ne.
  - intros Hin. rewrite Hmissing; [done|]. by rewrite remove_keys_lookup, decide_True.
  - intros Hin. unfold prop_get. by rewrite remove_keys_lookup, decide_False.
  - by rewrite Hmissing by apply lookup_empty.
Qed.

(** A removed key reads [null] and its neighbour as before; a removed key
    named like a member of [Object.prototype] reads as that member. *)
Lemma remove_and_clear_then_get_witness :
  fst (StorageManager_get env_offline "userId"
         (snd (StorageManager_remove env_offline "userId" signed_in_world))) = Ok None
  /\ fst (StorageManager_get env_offline "authToken"
            (snd (StorageManager_remove env_offline "userId" signed_in_world)))
     = Ok (Some (JStr "tok"))
  /\ fst (StorageManager_get env_offline "toString"
            (snd (StorageManager_remove env_offline "toString" signed_in_world)))
     = Ok (Some (JInherited "toString")).
Proof.
  pose proof (remove_and_clear_then_get env_offline signed_in_world "userId" "authToken"
                [] eq_refl eq_refl) as (H1 & H2 & _).
  pose proof (remove_and_clear_then_get env_offline signed_in_world "toString" "authToken"
                [] eq_refl eq_refl) as (H3 & _).
  split; [exact H1 | split; [exact (H2 ltac:(discriminate)) | exact H3]].
Defined.

(** X3. [getMultiple] answers with the stored values of the requested keys
    as they are -- falsy ones included, unlike [get] -- and with nothing for
    a key that is missing or was not asked for; after an accepted
    [setMultiple(data)] these are the values of [data] where it has the key
    and the earlier ones elsewhere. *)
Theorem getMultiple_reads_stored_values {T} (env : Env T) (w : World)
    (keys : list string) (data : gmap string JsVal) (k : string) :
  storage_fault env (storage_ops w) = false ->
  (exists m, fst (StorageManager_getMultiple env keys w) = Ok m
     /\ m !! k = if decide (k ∈ keys) then store w !! k else None)
  /\ (storage_fault env (S (storage_ops w)) = false ->
      exists m,
        fst (StorageManager_getMultiple env keys
               (snd (StorageManager_setMultiple env data w))) = Ok m
        /\ m !! k = if decide (k ∈ keys)
                    then match data !! k with Some v => Some v | None => store w !! k end
                    else None).
Proof.
  intros Hf. split.
  - rewrite getMultiple_ok by done. eexists. split; [reflexivity|]. apply pick_lookup.
  - intros Hf2. rewrite setMultiple_ok by done. cbn [snd].
    rewrite getMultiple_ok by done. eexists. split; [reflexivity|]. cbn [store].
    rewrite pick_lookup. case_decide; [|done].
    rewrite lookup_union. by destruct (data !! k), (store w !! k).
Qed.

Lemma getMultiple_reads_stored_values_witness :
  exists m, fst (StorageManager_getMultiple env_offline ["a"; "zz"]
                   (world_of falsy_store 0)) = Ok m
            /\ m !! "a" = Some (JStr "").
Proof.
  exact (proj1 (getMultiple_reads_stored_values env_offline (world_of falsy_store 0)
                  ["a"; "zz"] ∅ "a" eq_refl)).
Defined.

(** ** The word cache: what a write keeps, what cleaning removes *)

Section CacheUpdates.
Context {T : Type} (env : Env T).

Lemma cache_update_store g w :
  storage_fault env (S (storage_ops w)) = false ->
  store (snd (cache_update env g w))
  = <[ STORAGE_KEYS.WORD_CACHE :=
         JWordCache (g (clock w)
                       (if storage_fault env (storage_ops w) then ∅
                        else as_cache (store w !! STORAGE_KEYS.WORD_CACHE))) ]> (store w).
Proof.
  intros Hset. unfold cache_update, bind.
  destruct (storage_fault env (storage_ops w)) eqn:Hf.
  - rewrite get_fault by done. unfold Date_now.
    rewrite set_ok by (by rewrite storage_ops_emit_get). reflexivity.
  - rewrite get_ok by done. unfold Date_now.
    rewrite set_ok by (by rewrite storage_ops_emit_get).
    cbn [snd store emit clock]. by rewrite as_cache_or_null.
Qed.

Lemma cached_entry_after_update g w k :
  storage_fault env (S (storage_ops w)) = false ->
  cached_entry (store (snd (cache_update env g w))) k
  = g (clock w) (if storage_fault env (storage_ops w) then ∅
                 else as_cache (store w !! STORAGE_KEYS.WORD_CACHE)) !! k.
Proof.
  intros Hset. rewrite cache_update_store by done.
  unfold cached_entry. by rewrite lookup_insert_eq.
Qed.

Lemma setCachedWord_is_update word data :
  wordCacheStorage_setCachedWord env word data
  = cache_update env (fun now cache => assign_entry word (mkCached data (Some now)) cache).
Proof. reflexivity. Qed.

Lemma cleanExpiredCache_is_update :
  wordCacheStorage_cleanExpiredCache env
  = cache_update env (fun now cache => filter (fun kv => fresh now kv.2 = true) cache).
Proof. reflexivity. Qed.

End CacheUpdates.

Lemma filter_fresh_lookup now (cache : gmap string CachedWordData) k :
  filter (fun kv => fresh now kv.2 = true) cache !! k = lookup_fresh now cache k.
Proof.
  rewrite map_lookup_filter. unfold lookup_fresh.
  destruct (cache !! k) as [d|]; cbn; [|done].
  destruct (fresh now d); by case_guard.
Qed.

(** X4. A cache write keeps everything else.  With the store not failing and
    a well-typed cache slot, [setCachedWord(k, r)] (and the background's
    [setCachedWordData]) leaves the entry of every other word, and every
    other key of the store, as it was. *)
Theorem setCached_keeps_other_entries (env : Env WordData) (w : World)
    (k other : string) (r : WordData) (key : string) :
  no_faults env ->
  cache_slot_typed (store w) ->
  (other ≠ k ->
     cached_entry (store (snd (wordCacheStorage_setCachedWord env k r w))) other
       = cached_entry (store w) other
     /\ cached_entry (store (snd (setCachedWordData env k r w))) other
       = cached_entry (store w) other)
  /\ (key ≠ STORAGE_KEYS.WORD_CACHE ->
     store (snd (wordCacheStorage_setCachedWord env k r w)) !! key = store w !! key
     /\ store (snd (setCachedWordData env k r w)) !! key = store w !! key).
Proof.
  intros Hnf _. rewrite setCachedWord_is_update, setCachedWordData_run by apply Hnf.
  split.
  - intros Hne. rewrite cached_entry_after_update by apply Hnf. rewrite Hnf.
    cbn [snd store]. unfold cached_entry. rewrite lookup_insert_eq. cbn [as_cache].
    by rewrite !assign_entry_other.
  - intros Hne. rewrite cache_update_store by apply Hnf. cbn [snd store].
    by rewrite !lookup_insert_ne.
Qed.

Lemma setCached_keeps_other_entries_witness :
  cached_entry
    (store (snd (wordCacheStorage_setCachedWord env_offline "cat" sample_word two_entries)))
    "new"
  = Some (mkCached sample_word (Some 3000000)).
Proof.
  refine (proj1 (proj1 (setCached_keeps_other_entries env_offline two_entries
                          "cat" "new" sample_word "userId" _ _) _)).
  - intros n. reflexivity.
  - exact I.
  - discriminate.
Defined.

(** X5. A failed read costs [setCachedWord] the rest of the cache.  When the
    read of the cache is rejected and the write that follows is accepted,
    [setCachedWord(k, r)] of [storage.ts] stores a cache holding [k] alone
    (for [k] other than ["__proto__"], which an assignment to the fresh
    object does not turn into a property): every other entry is gone.  The
    background's [setCachedWordData] gives up instead and leaves the store as
    it was. *)
Theorem setCachedWord_after_failed_read (env : Env WordData) (w : World)
    (k other : string) (r : WordData) :
  storage_fault env (storage_ops w) = true ->
  storage_fault env (S (storage_ops w)) = false ->
  (k ≠ "__proto__" ->
   cached_entry (store (snd (wordCacheStorage_setCachedWord env k r w))) k
     = Some (mkCached r (Some (clock w))))
  /\ (other ≠ k ->
      cached_entry (store (snd (wordCacheStorage_setCachedWord env k r w))) other = None)
  /\ store (snd (setCachedWordData env k r w)) = store w.
Proof.
  intros Hget Hset. rewrite setCachedWord_is_update.
  rewrite !cached_entry_after_update by done. rewrite Hget.
  repeat apply conj.
  - intros Hk. by apply assign_entry_lookup.
  - intros Hne. by rewrite assign_entry_other, lookup_empty.
  - unfold setCachedWordData, try_catch, bind. by rewrite local_get_fault.
Qed.

Lemma setCachedWord_after_failed_read_witness :
  cached_entry
    (store (snd (wordCacheStorage_setCachedWord env_first_call_fails "cat" sample_word
                   two_entries))) "cat" = Some (mkCached sample_word (Some 4000000))
  /\ cached_entry
       (store (snd (wordCacheStorage_setCachedWord env_first_call_fails "cat" sample_word
                      two_entries))) "new" = None
  /\ store (snd (setCachedWordData env_first_call_fails "cat" sample_word two_entries))
     = store two_entries.
Proof.
  pose proof (setCachedWord_after_failed_read env_first_call_fails two_entries
                "cat" "new" sample_word eq_refl eq_refl) as (H1 & H2 & H3).
  split; [exact (H1 ltac:(discriminate)) | ].
  split; [exact (H2 ltac:(discriminate)) | exact H3].
Defined.

(** X6. Cleaning removes exactly the expired entries.  With the store not
    failing and a well-typed cache slot, after [cleanExpiredCache()] the
    stored cache holds an entry iff it held it before and the entry is still
    fresh at the time of the call; a [getCachedWord] at that time answers the
    same for every word, cleaned or not. *)
Theorem cleanExpiredCache_keeps_fresh_only (env : Env WordData) (w : World) (k : string) :
  no_faults env ->
  cache_slot_typed (store w) ->
  cached_entry (store (snd (wordCacheStorage_cleanExpiredCache env w))) k
    = match cached_entry (store w) k with
      | Some d => if fresh (clock w) d then Some d else None
      | None => None
      end
  /\ fst (wordCacheStorage_getCachedWord env k
            (snd (wordCacheStorage_cleanExpiredCache env w)))
     = fst (wordCacheStorage_getCachedWord env k w).
Proof.
  intros Hnf _. rewrite cleanExpiredCache_is_update.
  assert (cached_entry (store (snd (cache_update env
            (fun now cache => filter (fun kv => fresh now kv.2 = true) cache) w))) k
          = lookup_fresh (clock w) (as_cache (store w !! STORAGE_KEYS.WORD_CACHE)) k)
    as Hclean.
  { rewrite cached_entry_after_update by apply Hnf. rewrite Hnf.
    apply filter_fresh_lookup. }
  split; [exact Hclean|].
  rewrite !getCachedWord_run, !Hnf. cbn [fst]. f_equal.
  fold (cached_entry (store (snd (cache_update env
          (fun now cache => filter (fun kv => fresh now kv.2 = true) cache) w))) k)
    in Hclean.
  unfold lookup_fresh at 1.
  change (as_cache (store ?w' !! STORAGE_KEYS.WORD_CACHE) !! k)
    with (cached_entry (store w') k).
  rewrite Hclean.
  replace (clock (snd (cache_update env
             (fun now cache => filter (fun kv => fresh now kv.2 = true) cache) w)))
    with (clock w).
  2:{ unfold cache_update, bind. rewrite get_ok by (done || apply Hnf). unfold Date_now.
      by rewrite set_ok by apply Hnf. }
  unfold lookup_fresh. destruct (_ !! k) as [d|]; [|done].
  destruct (fresh (clock w) d) eqn:Hd; [by rewrite Hd | done].
Qed.

Lemma cleanExpiredCache_keeps_fresh_only_witness :
  cached_entry (store (snd (wordCacheStorage_cleanExpiredCache env_offline two_entries)))
    "old" = None
  /\ cached_entry (store (snd (wordCacheStorage_cleanExpiredCache env_offline two_entries)))
       "new" = Some (mkCached sample_word (Some 3000000)).
Proof.
  split.
  - refine (proj1 (cleanExpiredCache_keeps_fresh_only env_offline two_entries "old" _ _)).
    + intros n. reflexivity.
    + exact I.
  - refine (proj1 (cleanExpiredCache_keeps_fresh_only env_offline two_entries "new" _ _)).
    + intros n. reflexivity.
    + exact I.
Defined.

(** X7. Cleaning after a failed read empties the cache.  When the read of
    the cache is rejected and the write that follows is accepted,
    [cleanExpiredCache()] stores an empty cache: fresh entries are lost with
    the expired ones. *)
Theorem cleanExpiredCache_after_failed_read {T} (env : Env T) (w : World) (k : string) :
  storage_fault env (storage_ops w) = true ->
  storage_fault env (S (storage_ops w)) = false ->
  store (snd (wordCacheStorage_cleanExpiredCache env w)) !! STORAGE_KEYS.WORD_CACHE
    = Some (JWordCache ∅)
  /\ cached_entry (store (snd (wordCacheStorage_cleanExpiredCache env w))) k = None.
Proof.
  intros Hget Hset. rewrite cleanExpiredCache_is_update.
  rewrite cached_entry_after_update, cache_update_store by done. rewrite Hget.
  rewrite lookup_insert_eq, map_filter_empty. by rewrite lookup_empty.
Qed.

Lemma cleanExpiredCache_after_failed_read_witness :
  cached_entry
    (store (snd (wordCacheStorage_cleanExpiredCache env_first_call_fails two_entries)))
    "new" = None.
Proof.
  exact (proj2 (cleanExpiredCache_after_failed_read env_first_call_fails two_entries
                  "new" eq_refl eq_refl)).
Defined.

(** ** The current-word slot *)

(** X8. The current-word slot holds the last word written.  With the storage
    calls accepted, [getCurrentWord()] -- and the background's
    [GET_CURRENT_WORD_DATA] handler -- after [setCurrentWord(word, data)], from
    [storage.ts] or from the background script, gives
    [{word, data, timestamp}] with the time of the write, whatever the slot
    held before; after [clearCurrentWord()] it gives [null]. *)
Theorem currentWord_round_trip (env : Env WordData) (w : World) (word : string)
    (data : CachedWordData) :
  storage_fault env (storage_ops w) = false ->
  storage_fault env (S (storage_ops w)) = false ->
  (fst (currentWordStorage_getCurrentWord env
          (snd (currentWordStorage_setCurrentWord env word data w)))
     = Ok (Some (JCurrentWord (mkCurrent word data (clock w))))
   /\ fst (on_GET_CURRENT_WORD_DATA env (snd (setCurrentWord env word data w)))
     = Ok (Some (JCurrentWord (mkCurrent word data (clock w)))))
  /\ store (snd (setCurrentWord env word data w))
     = store (snd (currentWordStorage_setCurrentWord env word data w))
  /\ fst (currentWordStorage_getCurrentWord env
            (snd (currentWordStorage_clearCurrentWord env w))) = Ok None.
Proof.
  intros Hf1 Hf2.
  unfold currentWordStorage_getCurrentWord, currentWordStorage_setCurrentWord,
    currentWordStorage_clearCurrentWord, setCurrentWord, on_GET_CURRENT_WORD_DATA,
    try_catch, bind, Date_now.
  rewrite set_ok, remove_ok, local_set_ok by done. cbn [snd].
  rewrite !get_ok, local_get_ok by done. cbn [fst store emit].
  rewrite pick_one, <- insert_union_singleton_l, lookup_insert_eq, lookup_delete_eq.
  done.
Qed.

Lemma currentWord_round_trip_witness :
  fst (currentWordStorage_getCurrentWord env_offline
         (snd (currentWordStorage_setCurrentWord env_offline "cat"
                 (mkCached sample_word None) (world_of ∅ 5))))
  = Ok (Some (JCurrentWord (mkCurrent "cat" (mkCached sample_word None) 5))).
Proof.
  exact (proj1 (proj1 (currentWord_round_trip env_offline (world_of ∅ 5) "cat"
                         (mkCached sample_word None) eq_refl eq_refl))).
Defined.

(** ** The background resolution, beyond the failing case *)

Section ResolutionRuns.
Context (env : Env WordData).

Lemma setCachedWordData_fetches word data w :
  fetches (snd (setCachedWordData env word data w)) = fetches w.
Proof.
  unfold setCachedWordData, try_catch, bind, local_get, local_set, storage_call, Date_now.
  destruct (storage_fault env (storage_ops w)); [reflexivity|].
  cbn -[pick lookup insert singletonM union].
  by destruct (storage_fault env _).
Qed.

Lemma setCachedWordData_never_throws word data :
  never_throws (setCachedWordData env word data).
Proof.
  intros w.
  unfold setCachedWordData, try_catch, bind, local_get, local_set, storage_call, Date_now.
  destruct (storage_fault env (storage_ops w)); [by eexists|].
  cbn -[pick lookup insert singletonM union].
  destruct (storage_fault env _); by eexists.
Qed.

Lemma setCurrentWord_run word data w :
  setCurrentWord env word data w
  = (Ok tt,
     if storage_fault env (storage_ops w)
     then emit (EvSet {[ STORAGE_KEYS.CURRENT_WORD :=
                           JCurrentWord (mkCurrent word data (clock w)) ]}) w
     else mkWorld (<[ STORAGE_KEYS.CURRENT_WORD :=
                        JCurrentWord (mkCurrent word data (clock w)) ]> (store w))
            (clock w)
            (EvSet {[ STORAGE_KEYS.CURRENT_WORD :=
                        JCurrentWord (mkCurrent word data (clock w)) ]} :: trace w)).
Proof.
  unfold setCurrentWord, try_catch, bind, Date_now.
  destruct (storage_fault env (storage_ops w)) eqn:Hf.
  - by rewrite local_set_fault.
  - rewrite local_set_ok by done. by rewrite <- insert_union_singleton_l.
Qed.

Lemma fetchWordData_cases word w : fetch_case env word w (fetchWordData env word w).
Proof.
  unfold fetchWordData, try_catch, bind.
  destruct (getCachedWordData env word w) as [res w1] eqn:Hget.
  pose proof (f_equal fst Hget) as Hres. pose proof (f_equal snd Hget) as Hw1.
  rewrite getCachedWordData_run in Hw1. cbn [fst snd] in Hres, Hw1. subst w1.
  rewrite getCachedWordData_run in Hget. injection Hget as Hres'.
  destruct res as [[d|]|e]; [| |discriminate Hres'].
  - by apply case_hit.
  - unfold fetch. change (fetches (emit _ w)) with (fetches w).
    destruct (fetch_result env (fetches w)) as [|resp] eqn:Hfr.
    + apply case_no_data; [done|]. left. by rewrite Hfr.
    + cbn beta iota. destruct (ok resp) eqn:Hok; cbn [negb].
      * unfold json. destruct (body resp) as [d|] eqn:Hb.
        -- unfold ret at 1.
           destruct (setCachedWordData_never_throws word d
                       (emit (EvFetch (word_request env word))
                          (emit (EvGet [STORAGE_KEYS.WORD_CACHE]) w))) as [[] Hs].
           fold (word_request env word).
           destruct (setCachedWordData env word d _) as [r' w'] eqn:Hrun.
           cbn [fst] in Hs. subst r'. cbn [ret].
           replace w' with (snd (setCachedWordData env word d
                                   (emit (EvFetch (word_request env word))
                                      (emit (EvGet [STORAGE_KEYS.WORD_CACHE]) w))))
             by (by rewrite Hrun).
           by eapply case_fetched.
        -- unfold throw. apply case_no_data; [done|]. right. eauto.
      * apply case_no_data; [done|]. left. by rewrite Hfr; cbn; rewrite Hok.
Qed.

End ResolutionRuns.

Section ResolutionOutcomes.
Context (env : Env WordData).

Lemma setCurrentWord_fetches word data w :
  fetches (snd (setCurrentWord env word data w)) = fetches w.
Proof. rewrite setCurrentWord_run. cbn [snd]. by case_if. Qed.

Lemma getCachedWordData_result word w :
  exists o, fst (getCachedWordData env word w) = Ok o.
Proof. rewrite getCachedWordData_run. eauto. Qed.

End ResolutionOutcomes.

Lemma on_WORD_DETECTED_fetch_count (env : Env WordData) (word : string) (w : World) :
  fst (on_WORD_DETECTED env word w) = Ok tt
  /\ (exists o, fst (fetchWordData env word w) = Ok o)
  /\ fetches (snd (on_WORD_DETECTED env word w))
     = match fst (getCachedWordData env word w) with
       | Ok (Some _) => fetches w
       | _ => S (fetches w)
       end.
Proof.
  unfold on_WORD_DETECTED, bind.
  destruct (fetchWordData_cases env word w) as [d Hhit | Hmiss _ | resp d Hmiss _ _ _].
  - rewrite Hhit, setCurrentWord_run. cbn [fst snd]. repeat split; eauto. by case_if.
  - rewrite Hmiss. cbn. repeat split; eauto.
  - rewrite Hmiss, setCurrentWord_run. cbn [fst snd]. repeat split; eauto.
    transitivity (fetches (snd (setCachedWordData env word d
                                  (emit (EvFetch (word_request env word))
                                     (emit (EvGet [STORAGE_KEYS.WORD_CACHE]) w))))).
    + by case_if.
    + by rewrite setCachedWordData_fetches.
Qed.


(** X9. A resolution never rejects and sends at most one request: none when
    the cache has a fresh entry for the word, exactly one otherwise --
    whatever the store and the network do. *)
Theorem resolution_at_most_one_fetch (env : Env WordData) (word : string) (w : World) :
  fst (on_WORD_DETECTED env word w) = Ok tt
  /\ (exists o, fst (fetchWordData env word w) = Ok o)
  /\ fetches (snd (on_WORD_DETECTED env word w))
     = match fst (getCachedWordData env word w) with
       | Ok (Some _) => fetches w
       | _ => S (fetches w)
       end.
Proof. apply on_WORD_DETECTED_fetch_count. Qed.

(** X10. A request that brings no data leaves the store alone.  When the
    cache has no fresh entry for the word and the request is rejected,
    answered with a status outside 200..299, or answered with a body that is
    not JSON, [fetchWordData] resolves to [null] and the [WORD_DETECTED]
    handler makes no write: every stored value is as it was. *)
Theorem resolution_without_data_writes_nothing (env : Env WordData) (word : string)
    (w : World) :
  fst (getCachedWordData env word w) = Ok None ->
  (failed (fetch_result env (fetches w)) = true
   \/ exists resp, fetch_result env (fetches w) = Answer resp /\ body resp = None) ->
  fst (fetchWordData env word w) = Ok None
  /\ store (snd (on_WORD_DETECTED env word w)) = store w
  /\ writes (snd (on_WORD_DETECTED env word w)) = writes w.
Proof.
  intros Hmiss Hout. unfold on_WORD_DETECTED, bind.
  destruct (fetchWordData_cases env word w) as [d Hhit | _ _ | resp d _ Hresp Hok Hbody];
    cbn [fst].
  - congruence.
  - done.
  - exfalso. destruct Hout as [Hfail | (resp' & Hresp' & Hnone)].
    + rewrite Hresp in Hfail. cbn [failed] in Hfail. by rewrite Hok in Hfail.
    + congruence.
Qed.

(** A 200 whose body is not JSON. *)
Lemma resolution_without_data_writes_nothing_witness :
  fst (fetchWordData env_accepting "cat" two_entries) = Ok None
  /\ store (snd (on_WORD_DETECTED env_accepting "cat" two_entries)) = store two_entries
  /\ writes (snd (on_WORD_DETECTED env_accepting "cat" two_entries)) = writes two_entries.
Proof.
  refine (resolution_without_data_writes_nothing env_accepting "cat" two_entries
            eq_refl _).
  right. exists (mkResponse 200 None). split; reflexivity.
Defined.

Lemma on_WORD_DETECTED_success (env : Env WordData) (word : string) (w : World)
    (resp : Response WordData) (d : WordData) :
  no_faults env ->
  cache_slot_typed (store w) ->
  word ≠ "__proto__" ->
  fst (getCachedWordData env word w) = Ok None ->
  fetch_result env (fetches w) = Answer resp -> ok resp = true -> body resp = Some d ->
  fst (fetchWordData env word w) = Ok (Some (mkCached d None))
  /\ fetches (snd (on_WORD_DETECTED env word w)) = S (fetches w)
  /\ cached_entry (store (snd (on_WORD_DETECTED env word w))) word
     = Some (mkCached d (Some (clock w)))
  /\ store (snd (on_WORD_DETECTED env word w)) !! STORAGE_KEYS.CURRENT_WORD
     = Some (JCurrentWord (mkCurrent word (mkCached d None) (clock w))).
Proof.
  intros Hnf _ Hword Hmiss Hresp Hok Hbody.
  pose proof (on_WORD_DETECTED_fetch_count env word w) as (_ & _ & Hn).
  rewrite Hmiss in Hn. split; [|split; [exact Hn|]].
  - destruct (fetchWordData_cases env word w) as [d' Hhit | _ Hno | resp' d' _ Hr' _ Hb'].
    + congruence.
    + exfalso. destruct Hno as [Hfail | (resp' & Hr' & Hb')].
      * rewrite Hresp in Hfail. cbn in Hfail. by rewrite Hok in Hfail.
      * congruence.
    + cbn [fst]. congruence.
  - unfold on_WORD_DETECTED, bind.
    destruct (fetchWordData_cases env word w) as [d' Hhit | _ Hno | resp' d' _ Hr' _ Hb'].
    + congruence.
    + exfalso. destruct Hno as [Hfail | (resp' & Hr' & Hb')].
      * rewrite Hresp in Hfail. cbn in Hfail. by rewrite Hok in Hfail.
      * congruence.
    + assert (d' = d) as -> by congruence.
      rewrite setCurrentWord_run, Hnf. cbn [snd store].
      rewrite setCachedWordData_run by apply Hnf. cbn [snd store clock emit].
      unfold cached_entry. split.
      * rewrite lookup_insert_ne by discriminate. rewrite lookup_insert_eq.
        cbn [as_cache]. by apply assign_entry_lookup.
      * by rewrite lookup_insert_eq.
Qed.

(** X11. A successful resolution.  With the store not failing, a well-typed
    cache slot and no fresh entry for the word -- any word but ["__proto__"],
    under which an assignment stores nothing -- a request answered 2xx with
    the JSON body [d] makes the resolution return [d], cache it under the word
    with a [cachedAt] stamp, and set the current-word slot to
    [{word, data: d, timestamp}]; one request was sent.  The stamps are read
    from the clock after the answer has come in, so the statement leaves them
    open. *)
Theorem resolution_success (env : Env WordData) (word : string) (w : World)
    (resp : Response WordData) (d : WordData) :
  no_faults env ->
  cache_slot_typed (store w) ->
  word ≠ "__proto__" ->
  fst (getCachedWordData env word w) = Ok None ->
  fetch_result env (fetches w) = Answer resp -> ok resp = true -> body resp = Some d ->
  fst (fetchWordData env word w) = Ok (Some (mkCached d None))
  /\ fetches (snd (on_WORD_DETECTED env word w)) = S (fetches w)
  /\ (exists cachedAt,
        cached_entry (store (snd (on_WORD_DETECTED env word w))) word
        = Some (mkCached d (Some cachedAt)))
  /\ (exists timestamp,
        store (snd (on_WORD_DETECTED env word w)) !! STORAGE_KEYS.CURRENT_WORD
        = Some (JCurrentWord (mkCurrent word (mkCached d None) timestamp))).
Proof.
  intros Hnf Hty Hword Hmiss Hresp Hok Hbody.
  destruct (on_WORD_DETECTED_success env word w resp d Hnf Hty Hword Hmiss Hresp Hok Hbody)
    as (Hres & Hn & Hentry & Hcur).
  eauto 10.
Qed.

Lemma resolution_success_witness :
  fst (fetchWordData env_serving "cat" (world_of ∅ 7)) = Ok (Some (mkCached sample_word None))
  /\ fetches (snd (on_WORD_DETECTED env_serving "cat" (world_of ∅ 7))) = 1%nat
  /\ (exists cachedAt,
        cached_entry (store (snd (on_WORD_DETECTED env_serving "cat" (world_of ∅ 7)))) "cat"
        = Some (mkCached sample_word (Some cachedAt)))
  /\ (exists timestamp,
        store (snd (on_WORD_DETECTED env_serving "cat" (world_of ∅ 7))) !! "currentWord"
        = Some (JCurrentWord (mkCurrent "cat" (mkCached sample_word None) timestamp))).
Proof.
  refine (resolution_success env_serving "cat" (world_of ∅ 7)
            (mkResponse 200 (Some sample_word)) sample_word _ _ _ _ _ _ _).
  - intros n. reflexivity.
  - exact I.
  - discriminate.
  - reflexivity.
  - reflexivity.
  - reflexivity.
  - reflexivity.
Defined.

Lemma on_WORD_DETECTED_hit (env : Env WordData) (word : string) (w : World)
    (e : CachedWordData) :
  fst (getCachedWordData env word w) = Ok (Some e) ->
  storage_fault env (S (storage_ops w)) = false ->
  fst (fetchWordData env word w) = Ok (Some e)
  /\ fetches (snd (on_WORD_DETECTED env word w)) = fetches w
  /\ store (snd (on_WORD_DETECTED env word w))
     = <[ STORAGE_KEYS.CURRENT_WORD := JCurrentWord (mkCurrent word e (clock w)) ]>
         (store w).
Proof.
  intros Hhit Hset. unfold on_WORD_DETECTED, bind.
  destruct (fetchWordData_cases env word w) as [d Hd | Hmiss _ | resp d Hmiss _ _ _];
    try congruence.
  assert (d = e) as -> by congruence.
  rewrite setCurrentWord_run. cbn [fst snd]. rewrite storage_ops_emit_get, Hset. done.
Qed.

(** X12. A cache hit is served without the network.  When the cache has a
    fresh entry for the word, the resolution returns that entry, sends no
    request -- whatever the network would answer -- and, its write accepted,
    changes nothing in the store but the current-word slot, which becomes
    [{word, data: entry, timestamp}]. *)
Theorem resolution_cache_hit (env : Env WordData) (word : string) (w : World)
    (e : CachedWordData) :
  fst (getCachedWordData env word w) = Ok (Some e) ->
  storage_fault env (S (storage_ops w)) = false ->
  fst (fetchWordData env word w) = Ok (Some e)
  /\ fetches (snd (on_WORD_DETECTED env word w)) = fetches w
  /\ store (snd (on_WORD_DETECTED env word w))
     = <[ STORAGE_KEYS.CURRENT_WORD := JCurrentWord (mkCurrent word e (clock w)) ]>
         (store w).
Proof. apply on_WORD_DETECTED_hit. Qed.

Lemma resolution_cache_hit_witness :
  fetches (snd (on_WORD_DETECTED env_serving "example" example_cached)) = 0%nat
  /\ store (snd (on_WORD_DETECTED env_serving "example" example_cached)) !! "currentWord"
     = Some (JCurrentWord (mkCurrent "example" (mkCached sample_word (Some 0)) 1000)).
Proof.
  pose proof (resolution_cache_hit env_serving "example" example_cached
                (mkCached sample_word (Some 0)) eq_refl eq_refl) as (_ & Hn & Hs).
  split; [exact Hn | rewrite Hs; reflexivity].
Defined.

(** X13. Reuse within the hour, a new request after it.  A successful
    resolution of a word other than ["__proto__"] (store not failing,
    well-typed cache slot) leaves an entry stamped with some time [t0], the
    [cachedAt] it stored.  A second resolution of the same word that reads the
    clock at [t1] sends no request and serves the cached record when
    [t1 - t0 < 3,600,000], and sends a new request when
    [t1 >= t0 + 3,600,000]. *)
Theorem resolution_reuses_until_expiry (env : Env WordData) (word : string)
    (w : World) (resp : Response WordData) (d : WordData) :
  no_faults env ->
  cache_slot_typed (store w) ->
  word ≠ "__proto__" ->
  fst (getCachedWordData env word w) = Ok None ->
  fetch_result env (fetches w) = Answer resp -> ok resp = true -> body resp = Some d ->
  exists t0,
    cached_entry (store (snd (on_WORD_DETECTED env word w))) word
    = Some (mkCached d (Some t0))
    /\ forall t1,
        let w1 := at_time t1 (snd (on_WORD_DETECTED env word w)) in
        (t1 - t0 < CACHE_EXPIRY ->
           fetches (snd (on_WORD_DETECTED env word w1)) = fetches w1
           /\ fst (fetchWordData env word w1) = Ok (Some (mkCached d (Some t0))))
        /\ (t1 >= t0 + CACHE_EXPIRY ->
           fetches (snd (on_WORD_DETECTED env word w1)) = S (fetches w1)).
Proof.
  intros Hnf Hty Hword Hmiss Hresp Hok Hbody.
  destruct (on_WORD_DETECTED_success env word w resp d Hnf Hty Hword Hmiss Hresp Hok Hbody)
    as (_ & _ & Hentry & _).
  exists (clock w). split; [exact Hentry|]. intros t1 w1.
  assert (cached_entry (store w1) word = Some (mkCached d (Some (clock w)))) as Hw1
    by exact Hentry.
  unfold cached_entry in Hw1.
  split; intros Ht.
  - assert (fst (getCachedWordData env word w1) = Ok (Some (mkCached d (Some (clock w)))))
      as Hhit.
    { rewrite getCachedWordData_run, Hnf. cbn [fst]. f_equal.
      apply lookup_fresh_hit; [exact Hw1 | exact Ht]. }
    destruct (on_WORD_DETECTED_hit env word w1 _ Hhit (Hnf _)) as (Hres & Hn & _).
    split; [exact Hn | exact Hres].
  - assert (fst (getCachedWordData env word w1) = Ok None) as Hexp.
    { rewrite getCachedWordData_run, Hnf. cbn [fst]. f_equal.
      eapply lookup_fresh_expired; [exact Hw1 | exact Ht]. }
    pose proof (on_WORD_DETECTED_fetch_count env word w1) as (_ & _ & Hn).
    by rewrite Hexp in Hn.
Qed.

Lemma resolution_reuses_until_expiry_witness :
  exists t0,
    cached_entry (store (snd (on_WORD_DETECTED env_serving "cat" (world_of ∅ 0)))) "cat"
    = Some (mkCached sample_word (Some t0))
    /\ forall t1,
        let w1 := at_time t1 (snd (on_WORD_DETECTED env_serving "cat" (world_of ∅ 0))) in
        (t1 - t0 < CACHE_EXPIRY ->
           fetches (snd (on_WORD_DETECTED env_serving "cat" w1)) = fetches w1
           /\ fst (fetchWordData env_serving "cat" w1)
              = Ok (Some (mkCached sample_word (Some t0))))
        /\ (t1 >= t0 + CACHE_EXPIRY ->
           fetches (snd (on_WORD_DETECTED env_serving "cat" w1)) = S (fetches w1)).
Proof.
  refine (resolution_reuses_until_expiry env_serving "cat" (world_of ∅ 0)
            (mkResponse 200 (Some sample_word)) sample_word _ _ _ _ _ _ _).
  - intros n. reflexivity.
  - exact I.
  - discriminate.
  - reflexivity.
  - reflexivity.
  - reflexivity.
  - reflexivity.
Defined.

(** ** The retrying client *)

Section ClientRuns.
Context {T : Type} (env : Env T).

(** One iteration of the loop, whatever the network answers. *)
Lemma request_loop_step (c : ApiClient) (r : Request) (fuel : nat) (attempt : Z)
    (lastError : JsError) (w : World) :
  request_loop env c r (S fuel) attempt lastError w
  = match fetch_result env (fetches w) with
    | NetFail =>
        request_loop env c r fuel (attempt + 1) NetworkError
          (after_failed_attempt c r attempt w)
    | Answer resp =>
        if ok resp then
          match body resp with
          | Some b => (Ok b, emit (EvFetch r) w)
          | None =>
              request_loop env c r fuel (attempt + 1) SyntaxError
                (after_failed_attempt c r attempt w)
          end
        else
          request_loop env c r fuel (attempt + 1) (HttpError (status resp))
            (after_failed_attempt c r attempt w)
    end.
Proof.
  cbn [request_loop]. unfold try_catch, bind, fetch, delay, ret, json, throw,
    after_failed_attempt.
  destruct (fetch_result env (fetches w)) as [|resp].
  - by destruct (Z.ltb attempt (retryAttempts c)).
  - destruct (ok resp); cbn [negb].
    + destruct (body resp); [done|]. by destruct (Z.ltb attempt (retryAttempts c)).
    + by destruct (Z.ltb attempt (retryAttempts c)).
Qed.

Lemma after_failed_attempt_facts c r attempt w :
  fetches (after_failed_attempt c r attempt w) = S (fetches w)
  /\ store (after_failed_attempt c r attempt w) = store w
  /\ exists added, trace (after_failed_attempt c r attempt w) = (added ++ trace w)%list
                   /\ Forall (loop_event r) added.
Proof.
  unfold after_failed_attempt. destruct (Z.ltb attempt (retryAttempts c)); cbn.
  - repeat split. exists [EvDelay (retryDelay c * attempt); EvFetch r].
    split; [done|]. apply Forall_cons. split; [right; eauto|].
    apply Forall_cons. split; [by left | constructor].
  - repeat split. exists [EvFetch r]. split; [done|].
    apply Forall_cons. split; [by left | constructor].
Qed.

(** Success at the [j]-th retry. *)
Lemma request_loop_success (c : ApiClient) (r : Request) (resp : Response T) (b : T)
    (j : nat) :
  forall (fuel : nat) (attempt : Z) (lastError : JsError) (w : World),
  (j < fuel)%nat ->
  fails_before env (fetches w) j ->
  fetch_result env (fetches w + j) = Answer resp -> ok resp = true -> body resp = Some b ->
  exists w',
    request_loop env c r fuel attempt lastError w = (Ok b, w')
    /\ fetches w' = (fetches w + S j)%nat
    /\ store w' = store w.
Proof.
  induction j as [|j IH]; intros fuel attempt lastError w Hlt Hfails Hresp Hok Hbody;
    (destruct fuel as [|fuel]; [lia|]); rewrite request_loop_step.
  - rewrite Nat.add_0_r in Hresp. rewrite Hresp, Hok, Hbody.
    eexists. split; [reflexivity|]. split; [|done].
    change (fetches (emit (EvFetch r) w)) with (S (fetches w)). lia.
  - pose proof (Hfails 0%nat ltac:(lia)) as H0. rewrite Nat.add_0_r in H0.
    destruct (after_failed_attempt_facts c r attempt w) as (Hn & Hs & _).
    assert (exists e, match fetch_result env (fetches w) with
                      | NetFail =>
                          request_loop env c r fuel (attempt + 1) NetworkError
                            (after_failed_attempt c r attempt w)
                      | Answer resp0 =>
                          if ok resp0 then
                            match body resp0 with
                            | Some b0 => (Ok b0, emit (EvFetch r) w)
                            | None =>
                                request_loop env c r fuel (attempt + 1) SyntaxError
                                  (after_failed_attempt c r attempt w)
                            end
                          else
                            request_loop env c r fuel (attempt + 1)
                              (HttpError (status resp0))
                              (after_failed_attempt c r attempt w)
                      end
                      = request_loop env c r fuel (attempt + 1) e
                          (after_failed_attempt c r attempt w)) as [e ->].
    { destruct (fetch_result env (fetches w)) as [|resp0]; [eauto|].
      cbn in H0. destruct (ok resp0); [discriminate | eauto]. }
    destruct (IH fuel (attempt + 1) e (after_failed_attempt c r attempt w))
      as (w' & Hrun & Hn' & Hs'); try done.
    + lia.
    + intros i Hi. rewrite Hn. replace (S (fetches w) + i)%nat with (fetches w + S i)%nat
        by lia. apply Hfails. lia.
    + rewrite Hn. by replace (S (fetches w) + j)%nat with (fetches w + S j)%nat by lia.
    + exists w'. split; [exact Hrun|]. split; [lia | congruence].
Qed.

(** Whatever the network does, the loop only sends [r] and waits. *)
Lemma request_loop_trace (c : ApiClient) (r : Request) (fuel : nat) :
  forall (attempt : Z) (lastError : JsError) (w : World),
  exists added,
    trace (snd (request_loop env c r fuel attempt lastError w)) = (added ++ trace w)%list
    /\ Forall (loop_event r) added
    /\ store (snd (request_loop env c r fuel attempt lastError w)) = store w
    /\ (fetches (snd (request_loop env c r fuel attempt lastError w))
        <= fetches w + fuel)%nat.
Proof.
  induction fuel as [|fuel IH]; intros attempt lastError w.
  - exists []. cbn. repeat split; [constructor | lia].
  - rewrite request_loop_step.
    destruct (after_failed_attempt_facts c r attempt w) as (Hn & Hs & added1 & Ht1 & Hall1).
    assert (forall e,
      exists added,
        trace (snd (request_loop env c r fuel (attempt + 1) e
                      (after_failed_attempt c r attempt w))) = (added ++ trace w)%list
        /\ Forall (loop_event r) added
        /\ store (snd (request_loop env c r fuel (attempt + 1) e
                         (after_failed_attempt c r attempt w))) = store w
        /\ (fetches (snd (request_loop env c r fuel (attempt + 1) e
                            (after_failed_attempt c r attempt w)))
            <= fetches w + S fuel)%nat) as Hnext.
    { intros e.
      destruct (IH (attempt + 1) e (after_failed_attempt c r attempt w))
        as (added & Ht & Hall & Hst & Hle).
      exists (added ++ added1)%list. rewrite Ht, Ht1, app_assoc.
      repeat split; [by apply Forall_app | congruence | lia]. }
    destruct (fetch_result env (fetches w)) as [|resp]; [apply Hnext|].
    destruct (ok resp); [|apply Hnext].
    destruct (body resp); [|apply Hnext].
    exists [EvFetch r]. cbn [snd].
    change (fetches (emit (EvFetch r) w)) with (S (fetches w)).
    repeat split; [|lia]. apply Forall_cons. split; [by left | constructor].
Qed.

End ClientRuns.

Section ClientFacts.
Context {T : Type} (env : Env T).

Lemma ApiClient_request_unfold c endpoint meth payload w :
  ApiClient_request env c endpoint meth payload w
  = request_loop env c (client_request env c endpoint meth payload w)
      (Z.to_nat (retryAttempts c)) 1 Undefined
      (emit (EvGet [STORAGE_KEYS.AUTH_TOKEN]) w).
Proof. unfold ApiClient_request, bind. by rewrite getAuthToken_run. Qed.

(** The time the loop spends waiting when every attempt fails. *)
Lemma request_loop_clock (c : ApiClient) (r : Request) (fuel : nat) :
  always_fails env ->
  forall (attempt : Z) (lastError : JsError) (w : World),
  attempt + Z.of_nat (S fuel) = retryAttempts c + 1 ->
  2 * (clock (snd (request_loop env c r (S fuel) attempt lastError w)) - clock w)
  = retryDelay c * ((retryAttempts c - 1) * retryAttempts c - (attempt - 1) * attempt).
Proof.
  intros Hall. induction fuel as [|fuel IH]; intros attempt lastError w Hsum.
  - assert (attempt = retryAttempts c) as -> by lia.
    rewrite request_loop_step. pose proof (Hall (fetches w)) as Hf.
    assert (clock (after_failed_attempt c r (retryAttempts c) w) = clock w) as Hc.
    { unfold after_failed_attempt. by rewrite Z.ltb_irrefl. }
    destruct (fetch_result env (fetches w)) as [|resp]; cbn [request_loop throw snd].
    + rewrite Hc. lia.
    + cbn in Hf. destruct (ok resp); [discriminate|]. cbn [request_loop throw snd].
      rewrite Hc. lia.
  - rewrite request_loop_step. pose proof (Hall (fetches w)) as Hf.
    assert (clock (after_failed_attempt c r attempt w)
            = clock w + retryDelay c * attempt) as Hc.
    { unfold after_failed_attempt.
      destruct (Z.ltb_spec attempt (retryAttempts c)); [done | lia]. }
    assert (forall e,
      2 * (clock (snd (request_loop env c r (S fuel) (attempt + 1) e
                         (after_failed_attempt c r attempt w))) - clock w)
      = retryDelay c * ((retryAttempts c - 1) * retryAttempts c - (attempt - 1) * attempt))
      as Hnext.
    { intros e.
      pose proof (IH (attempt + 1) e (after_failed_attempt c r attempt w) ltac:(lia)) as H.
      rewrite Hc in H. nia. }
    destruct (fetch_result env (fetches w)) as [|resp]; [apply Hnext|].
    cbn in Hf. destruct (ok resp); [discriminate | apply Hnext].
Qed.

End ClientFacts.

(** X14. The client retries until an attempt succeeds.  If the first [j]
    requests fail, the next one is answered 2xx with the JSON body [b], and
    the client allows more than [j] attempts, [ApiClient.request] returns [b]
    after exactly [j + 1] requests, leaving the store as it was. *)
Theorem client_retries_until_success {T} (env : Env T) (c : ApiClient)
    (endpoint meth : string) (payload : option AddFlashcardRequest) (w : World)
    (resp : Response T) (b : T) (j : nat) :
  (j < Z.to_nat (retryAttempts c))%nat ->
  fails_before env (fetches w) j ->
  fetch_result env (fetches w + j) = Answer resp -> ok resp = true -> body resp = Some b ->
  fst (ApiClient_request env c endpoint meth payload w) = Ok b
  /\ fetches (snd (ApiClient_request env c endpoint meth payload w))
     = (fetches w + S j)%nat
  /\ store (snd (ApiClient_request env c endpoint meth payload w)) = store w.
Proof.
  intros Hj Hfails Hresp Hok Hbody. rewrite ApiClient_request_unfold.
  destruct (request_loop_success env c (client_request env c endpoint meth payload w)
              resp b j (Z.to_nat (retryAttempts c)) 1 Undefined
              (emit (EvGet [STORAGE_KEYS.AUTH_TOKEN]) w) Hj Hfails Hresp Hok Hbody)
    as (w' & -> & Hn & Hs).
  done.
Qed.

Lemma client_retries_until_success_witness :
  fst (wordApi_getWord env_flaky "cat" (world_of ∅ 0)) = Ok sample_word
  /\ fetches (snd (wordApi_getWord env_flaky "cat" (world_of ∅ 0))) = 3%nat.
Proof.
  assert (fails_before env_flaky (fetches (world_of ∅ 0)) 2) as Hfails.
  { intros [|[|i]] Hi; [reflexivity | reflexivity | lia]. }
  pose proof (client_retries_until_success env_flaky (apiClient env_flaky)
                "/word/cat" "GET" None (world_of ∅ 0)
                (mkResponse 200 (Some sample_word)) sample_word 2
                ltac:(cbn; lia) Hfails eq_refl eq_refl eq_refl) as (H1 & H2 & _).
  split; [exact H1 | exact H2].
Defined.

(** X15. What a client call can do.  Whatever the store and the network do,
    [ApiClient.request] reads the token once, then only sends one and the
    same request -- carrying the [Authorization] header exactly when the
    token could be read and is truthy -- and waits: it never writes to the
    store, and it sends at most [retryAttempts] requests.  A client set up
    with no attempt at all throws [undefined] without sending anything. *)
Theorem client_reads_token_then_only_sends {T} (env : Env T) (c : ApiClient)
    (endpoint meth : string) (payload : option AddFlashcardRequest) (w : World) :
  (exists added,
     trace (snd (ApiClient_request env c endpoint meth payload w))
     = (added ++ EvGet [STORAGE_KEYS.AUTH_TOKEN] :: trace w)%list
     /\ Forall (loop_event (client_request env c endpoint meth payload w)) added)
  /\ store (snd (ApiClient_request env c endpoint meth payload w)) = store w
  /\ (fetches (snd (ApiClient_request env c endpoint meth payload w))
      <= fetches w + Z.to_nat (retryAttempts c))%nat
  /\ (retryAttempts c <= 0 ->
      ApiClient_request env c endpoint meth payload w
      = (Throw Undefined, emit (EvGet [STORAGE_KEYS.AUTH_TOKEN]) w)).
Proof.
  rewrite ApiClient_request_unfold.
  destruct (request_loop_trace env c (client_request env c endpoint meth payload w)
              (Z.to_nat (retryAttempts c)) 1 Undefined
              (emit (EvGet [STORAGE_KEYS.AUTH_TOKEN]) w))
    as (added & Ht & Hall & Hs & Hle).
  repeat apply conj; [eauto | exact Hs | exact Hle |].
  intros Hz. by replace (Z.to_nat (retryAttempts c)) with 0%nat by lia.
Qed.

Lemma client_reads_token_then_only_sends_witness :
  ApiClient_request env_serving (mkApiClient "http://h" 0 1000) "/x" "GET" None
    signed_in_world
  = (Throw Undefined, emit (EvGet ["authToken"]) signed_in_world).
Proof.
  refine (proj2 (proj2 (proj2
            (client_reads_token_then_only_sends env_serving
               (mkApiClient "http://h" 0 1000) "/x" "GET" None signed_in_world))) _).
  cbn. lia.
Defined.

(** X16. The client's back-off.  When every request fails, a client allowing
    [n >= 0] attempts has waited [retryDelay * (1 + 2 + ... + (n - 1))] in
    all: [retryDelay * attempt] after each failed attempt but the last. *)
Theorem client_backoff_total {T} (env : Env T) (c : ApiClient)
    (endpoint meth : string) (payload : option AddFlashcardRequest) (w : World) :
  always_fails env ->
  0 <= retryAttempts c ->
  2 * (clock (snd (ApiClient_request env c endpoint meth payload w)) - clock w)
  = retryDelay c * (retryAttempts c * (retryAttempts c - 1)).
Proof.
  intros Hall Hn. rewrite ApiClient_request_unfold.
  destruct (Z.to_nat (retryAttempts c)) as [|fuel] eqn:Hfuel.
  - assert (retryAttempts c = 0) as -> by lia. cbn. lia.
  - pose proof (request_loop_clock env c
                  (client_request env c endpoint meth payload w) fuel Hall 1 Undefined
                  (emit (EvGet [STORAGE_KEYS.AUTH_TOKEN]) w) ltac:(lia)) as H.
    cbn [clock emit] in H. lia.
Qed.

Lemma client_backoff_total_witness :
  2 * (clock (snd (wordApi_getWord env_500 "cat" (world_of ∅ 0))) - 0) = 1000 * (3 * 2).
Proof.
  refine (client_backoff_total env_500 (apiClient env_500) "/word/cat" "GET" None
            (world_of ∅ 0) _ _).
  - intros n. reflexivity.
  - cbn. lia.
Defined.

(** ** The hook's [fetchWordData] and [clearCurrentWord] *)

Section HookRuns.
Context {T : Type} (env : Env T) (href : string).

Lemma hook_lookup word w :
  wordCacheStorage_getCachedWord env word
    (emit (EvUi (SetError None)) (emit (EvUi (SetIsLoading true)) w))
  = (fst (wordCacheStorage_getCachedWord env word w),
     emit (EvGet [STORAGE_KEYS.WORD_CACHE])
       (emit (EvUi (SetError None)) (emit (EvUi (SetIsLoading true)) w))).
Proof. by rewrite !getCachedWord_run. Qed.

Lemma hook_not_blank word :
  word ≠ "" -> trim word ≠ "" ->
  String.eqb word "" || String.eqb (trim word) "" = false.
Proof.
  intros H1 H2. apply orb_false_intro; by apply String.eqb_neq.
Qed.

(** A miss: the message goes out, and what follows depends on whether it was
    taken. *)
Lemma hook_miss_run word w :
  word ≠ "" -> trim word ≠ "" ->
  fst (wordCacheStorage_getCachedWord env (toLowerCase word) w) = Ok None ->
  useWordData_fetchWordData env href word w
  = (Ok tt,
     mkWorld (store w) (clock w)
       (EvUi (SetIsLoading false)
        :: (if send_fault env (sends w)
            then EvUi (SetError (ui_error FetchFailed))
            else EvRefreshLater 1000)
        :: EvSend (WORD_DETECTED (toLowerCase word) href (clock w))
        :: EvGet [STORAGE_KEYS.WORD_CACHE]
        :: EvUi (SetError None) :: EvUi (SetIsLoading true) :: trace w)).
Proof.
  intros H1 H2 Hmiss. unfold useWordData_fetchWordData.
  rewrite hook_not_blank by done.
  unfold try_finally, try_catch, bind, log. rewrite hook_lookup, Hmiss.
  unfold Date_now, sendMessage.
  change (sends (emit (EvGet [STORAGE_KEYS.WORD_CACHE])
                   (emit (EvUi (SetError None)) (emit (EvUi (SetIsLoading true)) w))))
    with (sends w).
  by destruct (send_fault env (sends w)).
Qed.

Lemma hook_hit_run word w d :
  word ≠ "" -> trim word ≠ "" ->
  fst (wordCacheStorage_getCachedWord env (toLowerCase word) w) = Ok (Some d) ->
  storage_fault env (S (storage_ops w)) = false ->
  useWordData_fetchWordData env href word w
  = (Ok tt,
     mkWorld
       (<[ STORAGE_KEYS.CURRENT_WORD :=
             JCurrentWord (mkCurrent (toLowerCase word) d (clock w)) ]> (store w))
       (clock w)
       (EvUi (SetIsLoading false)
        :: EvUi (SetCurrentWord (Some (mkCurrent (toLowerCase word) d (clock w))))
        :: EvSet {[ STORAGE_KEYS.CURRENT_WORD :=
                      JCurrentWord (mkCurrent (toLowerCase word) d (clock w)) ]}
        :: EvGet [STORAGE_KEYS.WORD_CACHE]
        :: EvUi (SetError None) :: EvUi (SetIsLoading true) :: trace w)).
Proof.
  intros H1 H2 Hhit Hset. unfold useWordData_fetchWordData.
  rewrite hook_not_blank by done.
  unfold try_finally, try_catch, bind, log. rewrite hook_lookup, Hhit.
  unfold Date_now, currentWordStorage_setCurrentWord, bind, Date_now.
  rewrite set_ok by exact Hset. reflexivity.
Qed.

End HookRuns.

(** X17. What the hook's [fetchWordData] does without a cached entry.  An
    empty or blank word is refused with an error message and nothing else: no
    storage call, no message.  For any other word of ASCII characters with no
    fresh entry under its lowercased form, the hook reads the cache once,
    writes nothing and calls [sendMessage] with [WORD_DETECTED] and the
    lowercased word.  When the message is taken it schedules one refresh a
    second later; when [sendMessage] rejects it shows the error and schedules
    none.  Either way it resolves and ends with the loading flag off. *)
Theorem hook_fetch_blank_or_miss {T} (env : Env T) (href word : string) (w : World) :
  (word = "" \/ trim word = "" ->
     useWordData_fetchWordData env href word w
     = (Ok tt, emit (EvUi (SetError (ui_error InvalidWord))) w))
  /\ (all_chars is_ascii word = true ->
      word ≠ "" -> trim word ≠ "" ->
      fst (wordCacheStorage_getCachedWord env (toLowerCase word) w) = Ok None ->
      fst (useWordData_fetchWordData env href word w) = Ok tt
      /\ store (snd (useWordData_fetchWordData env href word w)) = store w
      /\ exists timestamp,
          trace (snd (useWordData_fetchWordData env href word w))
          = EvUi (SetIsLoading false)
            :: (if send_fault env (sends w)
                then EvUi (SetError (ui_error FetchFailed))
                else EvRefreshLater 1000)
            :: EvSend (WORD_DETECTED (toLowerCase word) href timestamp)
            :: EvGet [STORAGE_KEYS.WORD_CACHE]
            :: EvUi (SetError None) :: EvUi (SetIsLoading true) :: trace w).
Proof.
  split.
  - intros Hblank. unfold useWordData_fetchWordData.
    assert (String.eqb word "" || String.eqb (trim word) "" = true) as ->; [|done].
    destruct Hblank as [-> | ->]; [done|]. by rewrite String.eqb_refl, orb_true_r.
  - intros _ H1 H2 Hmiss. rewrite hook_miss_run by done. eauto.
Qed.

(** A blank word; a miss whose message is taken; a miss whose message is
    not. *)
Lemma hook_fetch_blank_or_miss_witness :
  useWordData_fetchWordData env_offline "" "  " example_cached
    = (Ok tt, emit (EvUi (SetError (ui_error InvalidWord))) example_cached)
  /\ (exists timestamp,
        trace (snd (useWordData_fetchWordData env_offline "" "Cat" example_cached))
        = [ EvUi (SetIsLoading false); EvRefreshLater 1000;
            EvSend (WORD_DETECTED "cat" "" timestamp); EvGet ["wordCache"];
            EvUi (SetError None); EvUi (SetIsLoading true) ])
  /\ (exists timestamp,
        trace (snd (useWordData_fetchWordData env_no_receiver "" "Cat" example_cached))
        = [ EvUi (SetIsLoading false); EvUi (SetError (ui_error FetchFailed));
            EvSend (WORD_DETECTED "cat" "" timestamp); EvGet ["wordCache"];
            EvUi (SetError None); EvUi (SetIsLoading true) ]).
Proof.
  split; [|split].
  - exact (proj1 (hook_fetch_blank_or_miss env_offline "" "  " example_cached)
             (or_intror eq_refl)).
  - refine (proj2 (proj2 (proj2 (hook_fetch_blank_or_miss env_offline "" "Cat"
                                   example_cached) _ _ _ _)));
      [reflexivity | discriminate | discriminate | reflexivity].
  - refine (proj2 (proj2 (proj2 (hook_fetch_blank_or_miss env_no_receiver "" "Cat"
                                   example_cached) _ _ _ _)));
      [reflexivity | discriminate | discriminate | reflexivity].
Defined.

(** X18. What the hook's [fetchWordData] does with a cached entry.  For a
    non-blank word with a fresh entry under its lowercased form, and the
    write accepted, the hook stores [{word: lowercased, data: entry,
    timestamp}] in the current-word slot, shows the same object, sends no
    message to the background, and ends with the loading flag off. *)
Theorem hook_fetch_hit {T} (env : Env T) (href word : string) (w : World)
    (d : CachedWordData) :
  word ≠ "" -> trim word ≠ "" ->
  fst (wordCacheStorage_getCachedWord env (toLowerCase word) w) = Ok (Some d) ->
  storage_fault env (S (storage_ops w)) = false ->
  fst (useWordData_fetchWordData env href word w) = Ok tt
  /\ store (snd (useWordData_fetchWordData env href word w))
     = <[ STORAGE_KEYS.CURRENT_WORD :=
            JCurrentWord (mkCurrent (toLowerCase word) d (clock w)) ]> (store w)
  /\ trace (snd (useWordData_fetchWordData env href word w))
     = EvUi (SetIsLoading false)
       :: EvUi (SetCurrentWord (Some (mkCurrent (toLowerCase word) d (clock w))))
       :: EvSet {[ STORAGE_KEYS.CURRENT_WORD :=
                     JCurrentWord (mkCurrent (toLowerCase word) d (clock w)) ]}
       :: EvGet [STORAGE_KEYS.WORD_CACHE]
       :: EvUi (SetError None) :: EvUi (SetIsLoading true) :: trace w.
Proof. intros H1 H2 Hhit Hset. by rewrite (hook_hit_run env href word w d). Qed.

Lemma hook_fetch_hit_witness :
  store (snd (useWordData_fetchWordData env_offline "" "EXAMPLE" example_cached))
    !! "currentWord"
  = Some (JCurrentWord (mkCurrent "example" (mkCached sample_word (Some 0)) 1000)).
Proof.
  pose proof (hook_fetch_hit env_offline "" "EXAMPLE" example_cached
                (mkCached sample_word (Some 0))
                ltac:(discriminate) ltac:(discriminate) eq_refl eq_refl)
    as (_ & Hs & _).
  rewrite Hs. reflexivity.
Defined.

(** X19. [clearCurrentWord] of the hook always clears what is shown.  It
    never rejects, asks the store once to remove the slot, and then resets
    the shown word and the error -- also when the removal was rejected, in
    which case the stored slot is still there for the next load. *)
Theorem hook_clear_always_clears_display {T} (env : Env T) (w : World) :
  fst (useWordData_clearCurrentWord env w) = Ok tt
  /\ trace (snd (useWordData_clearCurrentWord env w))
     = EvUi (SetError None) :: EvUi (SetCurrentWord None)
       :: EvRemove [STORAGE_KEYS.CURRENT_WORD] :: trace w
  /\ store (snd (useWordData_clearCurrentWord env w))
     = if storage_fault env (storage_ops w) then store w
       else delete STORAGE_KEYS.CURRENT_WORD (store w).
Proof.
  unfold useWordData_clearCurrentWord, currentWordStorage_clearCurrentWord,
    StorageManager_remove, try_catch, bind, log, local_remove, storage_call.
  by destruct (storage_fault env (storage_ops w)).
Qed.

(** ** The background's credential handlers and the gateway *)

Section HandlerRuns.
Context {T : Type} (env : Env T).

Lemma on_SET_AUTH_DATA_run tok uid w :
  storage_fault env (S (storage_ops w)) = false ->
  on_SET_AUTH_DATA env tok uid w
  = (Ok true,
     mkWorld
       (<[ STORAGE_KEYS.USER_ID := uid ]>
          (if storage_fault env (storage_ops w) then store w
           else <[ STORAGE_KEYS.AUTH_TOKEN := tok ]> (store w)))
       (clock w)
       (EvSet {[ STORAGE_KEYS.USER_ID := uid ]}
        :: EvSet {[ STORAGE_KEYS.AUTH_TOKEN := tok ]} :: trace w)).
Proof.
  intros Hset. unfold on_SET_AUTH_DATA, setAuthToken, try_catch, bind.
  destruct (storage_fault env (storage_ops w)) eqn:Hf.
  - rewrite local_set_fault by done. cbn [ret].
    rewrite local_set_ok by exact Hset. cbn. by rewrite <- insert_union_singleton_l.
  - rewrite local_set_ok by done.
    rewrite local_set_ok by exact Hset. cbn.
    by rewrite <- !insert_union_singleton_l.
Qed.

Lemma on_GET_AUTH_DATA_run w :
  on_GET_AUTH_DATA env w
  = (Ok (if storage_fault env (storage_ops w) then None
         else or_null (store w !! STORAGE_KEYS.AUTH_TOKEN),
         if storage_fault env (S (storage_ops w)) then None
         else or_null (store w !! STORAGE_KEYS.USER_ID)),
     emit (EvGet [STORAGE_KEYS.USER_ID]) (emit (EvGet [STORAGE_KEYS.AUTH_TOKEN]) w)).
Proof.
  unfold on_GET_AUTH_DATA, bind. by rewrite getAuthToken_run, getUserId_run.
Qed.

End HandlerRuns.

(** X20. Credentials through the background's handlers.  With the store not
    failing, [GET_AUTH_DATA] after [SET_AUTH_DATA{token, userId}] answers
    with the two values sent, a falsy one ([null] on sign-out, an empty
    string) coming back as [null]; and after a [SET_AUTH_DATA] whose token or
    user id is falsy, [addFlashcardToUser] sends nothing and resolves to
    [false]. *)
Theorem auth_handlers_round_trip {T} (env : Env T) (w : World) (tok uid : JsVal)
    (flashcardId : string) :
  no_faults env ->
  fst (on_GET_AUTH_DATA env (snd (on_SET_AUTH_DATA env tok uid w)))
    = Ok (if truthy tok then Some tok else None, if truthy uid then Some uid else None)
  /\ (truthy tok = false \/ truthy uid = false ->
      fst (addFlashcardToUser env flashcardId (snd (on_SET_AUTH_DATA env tok uid w)))
        = Ok false
      /\ fetches (snd (addFlashcardToUser env flashcardId
                         (snd (on_SET_AUTH_DATA env tok uid w)))) = fetches w).
Proof.
  intros Hnf. rewrite on_SET_AUTH_DATA_run by apply Hnf. rewrite Hnf. cbn [snd].
  rewrite on_GET_AUTH_DATA_run, addFlashcardToUser_run, !Hnf. cbn [fst store].
  rewrite lookup_insert_eq.
  rewrite lookup_insert_ne by discriminate. rewrite lookup_insert_eq. cbn [or_null].
  split; [done|]. intros [H | H]; rewrite H; [done|]. by destruct (truthy tok).
Qed.

Lemma auth_handlers_round_trip_witness :
  fst (on_GET_AUTH_DATA env_accepting
         (snd (on_SET_AUTH_DATA env_accepting JNull JNull signed_in_world)))
    = Ok (None, None)
  /\ fetches (snd (addFlashcardToUser env_accepting "fc-1"
                     (snd (on_SET_AUTH_DATA env_accepting JNull JNull signed_in_world))))
     = 0%nat.
Proof.
  pose proof (auth_handlers_round_trip env_accepting signed_in_world JNull JNull "fc-1"
                (fun n => eq_refl)) as (H1 & H2).
  split; [exact H1 | exact (proj2 (H2 (or_introl eq_refl)))].
Defined.

(** X21. How [SET_AUTH_DATA] fails.  The handler rejects exactly when its
    second write, of the user id, is rejected.  A rejected first write, of
    the token, is swallowed: the handler then still answers
    [{success: true}], having stored the new user id beside the old token. *)
Theorem set_auth_data_failure_modes {T} (env : Env T) (w : World) (tok uid : JsVal) :
  (storage_fault env (S (storage_ops w)) = true ->
     fst (on_SET_AUTH_DATA env tok uid w) = Throw StorageError)
  /\ (storage_fault env (S (storage_ops w)) = false ->
      fst (on_SET_AUTH_DATA env tok uid w) = Ok true)
  /\ (storage_fault env (storage_ops w) = true ->
      storage_fault env (S (storage_ops w)) = false ->
      store (snd (on_SET_AUTH_DATA env tok uid w)) !! STORAGE_KEYS.AUTH_TOKEN
        = store w !! STORAGE_KEYS.AUTH_TOKEN
      /\ store (snd (on_SET_AUTH_DATA env tok uid w)) !! STORAGE_KEYS.USER_ID = Some uid).
Proof.
  repeat apply conj.
  - intros Hset. unfold on_SET_AUTH_DATA, setAuthToken, try_catch, bind.
    destruct (storage_fault env (storage_ops w)) eqn:Hf.
    + rewrite local_set_fault by done. cbn [ret]. by rewrite local_set_fault.
    + rewrite local_set_ok by done. by rewrite local_set_fault.
  - intros Hset. by rewrite on_SET_AUTH_DATA_run.
  - intros Hf Hset. rewrite on_SET_AUTH_DATA_run by done. rewrite Hf. cbn [snd store].
    rewrite lookup_insert_ne by discriminate. by rewrite lookup_insert_eq.
Qed.

Lemma set_auth_data_failure_modes_witness :
  store (snd (on_SET_AUTH_DATA env_first_call_fails (JStr "new-token") (JStr "u2")
                (world_of (store signed_in_world) 0))) !! STORAGE_KEYS.AUTH_TOKEN
    = Some (JStr "tok")
  /\ store (snd (on_SET_AUTH_DATA env_first_call_fails (JStr "new-token") (JStr "u2")
                   (world_of (store signed_in_world) 0))) !! STORAGE_KEYS.USER_ID
     = Some (JStr "u2").
Proof.
  exact (proj2 (proj2 (set_auth_data_failure_modes env_first_call_fails
                         (world_of (store signed_in_world) 0)
                         (JStr "new-token") (JStr "u2"))) eq_refl eq_refl).
Defined.

(** X22. The gateway at large.  Whatever the store and the network do,
    [addFlashcardToUser] never rejects, never writes to the store, and sends
    at most one request. *)
Theorem gateway_never_throws_never_writes {T} (env : Env T) (w : World)
    (flashcardId : string) :
  (exists b, fst (addFlashcardToUser env flashcardId w) = Ok b)
  /\ store (snd (addFlashcardToUser env flashcardId w)) = store w
  /\ writes (snd (addFlashcardToUser env flashcardId w)) = writes w
  /\ (fetches (snd (addFlashcardToUser env flashcardId w)) <= S (fetches w))%nat.
Proof.
  rewrite addFlashcardToUser_run.
  generalize (if storage_fault env (storage_ops w) then None
              else or_null (store w !! STORAGE_KEYS.AUTH_TOKEN)).
  generalize (if storage_fault env (S (storage_ops w)) then None
              else or_null (store w !! STORAGE_KEYS.USER_ID)).
  intros [uid|] [tok|]; cbn [fst snd]; repeat split; eauto;
    try (change (fetches (emit _ (emit _ (emit _ w)))) with (S (fetches w)); lia);
    change (fetches (emit _ (emit _ w))) with (fetches w); lia.
Qed.

(** ** Utility functions *)

Lemma is_letter_lower (c : ascii) : is_letter (lower c) = is_letter c.
Proof. destruct c as [[] [] [] [] [] [] [] []]; reflexivity. Qed.

Lemma all_letters_lower (s : string) :
  all_chars is_letter (toLowerCase s) = all_chars is_letter s.
Proof. induction s as [|c r IH]; cbn; [done|]. by rewrite is_letter_lower, IH. Qed.

Lemma length_toLowerCase (s : string) :
  String.length (toLowerCase s) = String.length s.
Proof. induction s as [|c r IH]; cbn; [done|]. by rewrite IH. Qed.

Lemma wordRegex_test_lower (s : string) :
  wordRegex_test (toLowerCase s) = wordRegex_test s.
Proof. unfold wordRegex_test. by rewrite all_letters_lower, length_toLowerCase. Qed.

Lemma length_trimStart (s : string) : (String.length (trimStart s) <= String.length s)%nat.
Proof.
  induction s as [|c r IH]; cbn; [done|]. destruct (is_ws c); cbn; lia.
Qed.

Lemma length_trimEnd (s : string) : (String.length (trimEnd s) <= String.length s)%nat.
Proof.
  induction s as [|c r IH]; cbn; [done|].
  destruct (trimEnd r); [destruct (is_ws c)|]; cbn in *; lia.
Qed.

Lemma length_trim (s : string) : (String.length (trim s) <= String.length s)%nat.
Proof.
  unfold trim. pose proof (length_trimEnd (trimStart s)). pose proof (length_trimStart s).
  lia.
Qed.

(** X23. [isValidEnglishWord] looks at the trimmed word only and, on ASCII
    words, ignores letter case: it answers the same for a word and its
    trimmed form, and for a word of ASCII characters and its lowercased form;
    a word it accepts is, once trimmed, made of 1 to 50 letters and nothing
    else. *)
Theorem isValidEnglishWord_properties (w : string) :
  (all_chars is_ascii w = true ->
   isValidEnglishWord (toLowerCase w) = isValidEnglishWord w)
  /\ isValidEnglishWord (trim w) = isValidEnglishWord w
  /\ (isValidEnglishWord w = true ->
      all_chars is_letter (trim w) = true
      /\ (1 <= String.length (trim w) <= 50)%nat).
Proof.
  unfold isValidEnglishWord. repeat apply conj.
  - intros _. by rewrite eqb_empty_lower, trim_lower, wordRegex_test_lower.
  - rewrite trim_idem. destruct (String.eqb_spec w "") as [->|Hw]; [done|].
    destruct (String.eqb_spec (trim w) "") as [->|Ht]; done.
  - destruct (String.eqb w ""); [done|]. unfold wordRegex_test.
    intros H. apply andb_prop in H as [H H50]. apply andb_prop in H as [Hall H1].
    apply Nat.leb_le in H1, H50. done.
Qed.

Lemma isValidEnglishWord_properties_witness :
  isValidEnglishWord (toLowerCase "  Cat ") = isValidEnglishWord "  Cat "
  /\ all_chars is_letter (trim "  Cat ") = true
  /\ (1 <= String.length (trim "  Cat ") <= 50)%nat.
Proof.
  split.
  - exact (proj1 (isValidEnglishWord_properties "  Cat ") eq_refl).
  - exact (proj2 (proj2 (isValidEnglishWord_properties "  Cat ")) eq_refl).
Defined.

Lemma length_substring_0 (n : nat) (s : string) :
  (String.length (String.substring 0 n s) <= n)%nat.
Proof.
  revert s. induction n as [|n IH]; intros [|c r]; cbn; try lia.
  specialize (IH r). lia.
Qed.

Lemma length_append (s t : string) :
  String.length (s ++ t) = (String.length s + String.length t)%nat.
Proof. induction s as [|c r IH]; simpl; [done|]. by f_equal. Qed.

(** X24. [truncateText] returns a text that fits as it is, and otherwise a
    text ending in "..." of at most [maxLength + 3] characters, for a
    [maxLength] that is not negative. *)
Theorem truncateText_bounds (text : string) (maxLength : Z) :
  (Z.of_nat (String.length text) <= maxLength -> truncateText text maxLength = text)
  /\ (0 <= maxLength ->
      Z.of_nat (String.length (truncateText text maxLength)) <= maxLength + 3)
  /\ (0 <= maxLength < Z.of_nat (String.length text) ->
      exists kept, truncateText text maxLength = kept ++ "..."
                   /\ Z.of_nat (String.length kept) <= maxLength).
Proof.
  assert (0 <= maxLength ->
          Z.of_nat (String.length (trim (slice_to text maxLength))) <= maxLength) as Hkept.
  { intros Hm. pose proof (length_trim (slice_to text maxLength)) as Ht.
    unfold slice_to in *. destruct (Z.ltb_spec maxLength 0) as [|_]; [lia|].
    pose proof (length_substring_0
                  (Z.to_nat (Z.min maxLength (Z.of_nat (String.length text)))) text).
    lia. }
  unfold truncateText. repeat apply conj.
  - intros Hfit. destruct (Z.leb_spec (Z.of_nat (String.length text)) maxLength); [|lia].
    by rewrite orb_true_r.
  - intros Hm. destruct (String.eqb_spec text "") as [->|Hne]; [cbn; lia|].
    destruct (Z.leb_spec (Z.of_nat (String.length text)) maxLength); cbn [orb]; [lia|].
    rewrite length_append. specialize (Hkept Hm). cbn [String.length]. lia.
  - intros [Hm Hlong]. destruct (String.eqb_spec text "") as [->|Hne]; [cbn in Hlong; lia|].
    destruct (Z.leb_spec (Z.of_nat (String.length text)) maxLength); [lia|]. cbn [orb].
    eexists. split; [reflexivity | by apply Hkept].
Qed.

Lemma truncateText_bounds_witness :
  exists kept, truncateText "hello world" 6 = kept ++ "..."
               /\ Z.of_nat (String.length kept) <= 6.
Proof.
  refine (proj2 (proj2 (truncateText_bounds "hello world" 6)) _). cbn. lia.
Defined.

Example truncateText_examples :
  truncateText "hello world" 6 = "hello..."
  /\ truncateText "hello" 5 = "hello"
  /\ truncateText "hello" 4 = "hell..."
  /\ truncateText "abcdef" (-1) = "abcde...".
Proof. repeat split. Qed.

Lemma chunk_loop_spec {A} (array : list A) (size : nat) :
  (1 <= size)%nat ->
  forall (fuel i : nat),
  (List.length array - i <= fuel)%nat ->
  exists chunks,
    chunk_loop fuel array size i = Some chunks
    /\ concat chunks = drop i array
    /\ Forall (fun c => 1 <= List.length c <= size)%nat chunks.
Proof.
  intros Hsize. induction fuel as [|fuel IH]; intros i Hfuel.
  - exists []. cbn [chunk_loop].
    destruct (Nat.ltb_spec i (List.length array)); [lia|].
    repeat split; [|constructor]. by rewrite drop_ge.
  - cbn [chunk_loop]. destruct (Nat.ltb_spec i (List.length array)) as [Hlt|Hge].
    + destruct (IH (i + size)%nat ltac:(lia)) as (chunks & -> & Hcat & Hall).
      eexists. split; [reflexivity|]. split.
      * cbn [concat]. rewrite Hcat. unfold slice_from.
        replace (i + size - i)%nat with size by lia.
        rewrite <- drop_drop. apply take_drop.
      * apply Forall_cons. split; [|exact Hall]. unfold slice_from.
        rewrite length_take, length_drop. lia.
    + exists []. repeat split; [|constructor]. by rewrite drop_ge.
Qed.

Lemma chunk_loop_zero_size {A} (array : list A) (fuel i : nat) :
  (i < List.length array)%nat -> chunk_loop fuel array 0 i = None.
Proof.
  intros Hlt. induction fuel as [|fuel IH]; cbn [chunk_loop];
    destruct (Nat.ltb_spec i (List.length array)); try lia; [done|].
  by rewrite Nat.add_0_r, IH.
Qed.

(** X25. [chunk] cuts an array into consecutive pieces.  For a size of at
    least 1 the loop ends within [array.length] iterations, the pieces put
    end to end give the array back, and every piece has between 1 and [size]
    elements.  For size 0 and a non-empty array the loop never ends: no number
    of iterations suffices. *)
Theorem chunk_partitions {A} (array : list A) (size : nat) :
  ((1 <= size)%nat ->
     exists chunks,
       chunk (List.length array) array size = Some chunks
       /\ concat chunks = array
       /\ Forall (fun c => 1 <= List.length c <= size)%nat chunks)
  /\ (size = 0%nat -> array <> [] -> forall fuel, chunk fuel array size = None).
Proof.
  split.
  - intros Hsize.
    destruct (chunk_loop_spec array size Hsize (List.length array) 0 ltac:(lia))
      as (chunks & Hrun & Hcat & Hall).
    exists chunks. by rewrite drop_0 in Hcat.
  - intros -> Hne fuel. apply chunk_loop_zero_size. destruct array; [done | cbn; lia].
Qed.

Lemma chunk_partitions_witness :
  exists chunks,
    chunk 5 [1; 2; 3; 4; 5]%nat 2 = Some chunks
    /\ concat chunks = [1; 2; 3; 4; 5]%nat
    /\ Forall (fun c => 1 <= List.length c <= 2)%nat chunks.
Proof.
  exact (proj1 (chunk_partitions [1; 2; 3; 4; 5]%nat 2) ltac:(lia)).
Defined.

Example chunk_example :
  chunk 5 [1; 2; 3; 4; 5]%nat 2 = Some [[1; 2]; [3; 4]; [5]]%nat.
Proof. reflexivity. Qed.

(** X26. [formatRelativeTime] names the largest unit that has passed.  A
    timestamp less than a minute old -- or in the future -- reads as "now";
    otherwise the text counts whole minutes (1 to 59) below an hour, whole
    hours (1 to 23) below a day, and whole days from then on. *)
Theorem formatRelativeTime_units (now timestamp : Z) :
  (now - timestamp < 60000 -> formatRelativeTime now timestamp = JustNow)
  /\ (60000 <= now - timestamp < 3600000 ->
      formatRelativeTime now timestamp = MinutesAgo ((now - timestamp) / 60000)
      /\ 1 <= (now - timestamp) / 60000 <= 59)
  /\ (3600000 <= now - timestamp < 86400000 ->
      formatRelativeTime now timestamp = HoursAgo ((now - timestamp) / 3600000)
      /\ 1 <= (now - timestamp) / 3600000 <= 23)
  /\ (86400000 <= now - timestamp ->
      formatRelativeTime now timestamp = DaysAgo ((now - timestamp) / 86400000)
      /\ 1 <= (now - timestamp) / 86400000).
Proof.
  unfold formatRelativeTime. set (diff := now - timestamp).
  assert (diff / 1000 / 60 = diff / 60000) as Hm
    by (rewrite Z.div_div by lia; reflexivity).
  assert (diff / 1000 / 60 / 60 = diff / 3600000) as Hh
    by (rewrite Hm, Z.div_div by lia; reflexivity).
  assert (diff / 1000 / 60 / 60 / 24 = diff / 86400000) as Hd
    by (rewrite Hh, Z.div_div by lia; reflexivity).
  rewrite Hd, Hh, Hm.
  pose proof (Z.div_mod diff 60000 ltac:(lia)) as E1.
  pose proof (Z.mod_pos_bound diff 60000 ltac:(lia)) as B1.
  pose proof (Z.div_mod diff 3600000 ltac:(lia)) as E2.
  pose proof (Z.mod_pos_bound diff 3600000 ltac:(lia)) as B2.
  pose proof (Z.div_mod diff 86400000 ltac:(lia)) as E3.
  pose proof (Z.mod_pos_bound diff 86400000 ltac:(lia)) as B3.
  repeat apply conj; intros H;
    destruct (Z.ltb_spec 0 (diff / 86400000));
    destruct (Z.ltb_spec 0 (diff / 3600000));
    destruct (Z.ltb_spec 0 (diff / 60000));
    try (split; [reflexivity | lia]); try reflexivity; exfalso; lia.
Qed.

Lemma formatRelativeTime_units_witness :
  formatRelativeTime 10000000 4000000 = HoursAgo (6000000 / 3600000)
  /\ 1 <= 6000000 / 3600000 <= 23.
Proof.
  refine (proj1 (proj2 (proj2 (formatRelativeTime_units 10000000 4000000))) _). lia.
Defined.

Lemma lower_letter (c : ascii) :
  is_letter c = true -> is_lower_letter (lower c) = true.
Proof. destruct c as [[] [] [] [] [] [] [] []]; cbn; intros; done. Qed.

Lemma all_lower_letters (s : string) :
  all_chars is_letter s = true -> all_chars is_lower_letter (toLowerCase s) = true.
Proof.
  induction s as [|c r IH]; cbn; [done|]. intros H. apply andb_prop in H as [Hc Hr].
  by rewrite lower_letter, IH.
Qed.

Lemma close_run_nonempty (cur : string) : Forall (fun w => w ≠ "") (close_run cur).
Proof.
  unfold close_run. destruct (String.eqb_spec cur ""); repeat constructor. done.
Qed.

Lemma word_runs_nonempty (s : string) :
  forall cur, Forall (fun w => w ≠ "") (word_runs cur s).
Proof.
  induction s as [|c r IH]; intros cur; cbn [word_runs].
  - apply close_run_nonempty.
  - destruct (is_word_char c); [apply IH|].
    apply Forall_app. split; [apply close_run_nonempty | apply IH].
Qed.

Lemma set_of_spec (l : list string) :
  forall seen,
    NoDup (set_of seen l)
    /\ (forall x, x ∈ set_of seen l <-> x ∈ l /\ x ∉ seen).
Proof.
  induction l as [|y r IH]; intros seen; cbn [set_of].
  - split; [constructor|]. intros x. rewrite elem_of_nil. tauto.
  - case_bool_decide as Hy.
    + destruct (IH seen) as [Hnd Hin]. split; [exact Hnd|].
      intros x. rewrite Hin, elem_of_cons. split; [tauto|].
      intros [[-> | Hx] Hns]; [done | tauto].
    + destruct (IH (y :: seen)) as [Hnd Hin]. split.
      * constructor; [|exact Hnd]. rewrite Hin, elem_of_cons. tauto.
      * intros x. rewrite !elem_of_cons, Hin, elem_of_cons.
        destruct (decide (x = y)) as [->|Hne]; tauto.
Qed.

(** X27. [extractEnglishWords] answers with distinct lowercase words.  Every
    word it returns is non-empty and made of the letters a to z only, no word
    is returned twice, and the words returned are exactly the lowercased
    matches of the pattern in the text. *)
Theorem extractEnglishWords_distinct_lowercase (text : string) :
  Forall (fun w => w ≠ "" /\ all_chars is_lower_letter w = true)
    (extractEnglishWords text)
  /\ NoDup (extractEnglishWords text)
  /\ (forall w, w ∈ extractEnglishWords text
                <-> exists m, m ∈ match_words text /\ w = toLowerCase m).
Proof.
  assert (forall w, w ∈ extractEnglishWords text
                    <-> exists m, m ∈ match_words text /\ w = toLowerCase m) as Hin.
  { intros w. unfold extractEnglishWords.
    destruct (String.eqb_spec text "") as [->|Hne].
    - cbn. rewrite elem_of_nil. split; [done|]. intros (m & Hm & _).
      by apply elem_of_nil in Hm.
    - destruct (set_of_spec (List.map toLowerCase (match_words text)) []) as [_ H].
      rewrite H, list_elem_of_In, in_map_iff. split.
      + intros [(m & <- & Hm) _]. exists m. by rewrite list_elem_of_In.
      + intros (m & Hm & ->). split; [|apply not_elem_of_nil].
        exists m. by rewrite <- list_elem_of_In. }
  repeat apply conj; [| |exact Hin].
  - apply Forall_forall. intros w Hw. apply Hin in Hw as (m & Hm & ->).
    unfold match_words in Hm. rewrite list_elem_of_In in Hm.
    apply filter_In in Hm as [Hrun Hletters].
    pose proof (word_runs_nonempty text "") as Hne.
    rewrite Forall_forall in Hne. specialize (Hne m).
    rewrite list_elem_of_In in Hne. specialize (Hne Hrun).
    split; [|by apply all_lower_letters].
    by destruct m.
  - unfold extractEnglishWords. destruct (String.eqb text ""); [constructor|].
    apply set_of_spec.
Qed.

Example extractEnglishWords_examples :
  extractEnglishWords "The cat, the CAT and don't x1 a_b" = ["the"; "cat"; "and"; "don"; "t"]
  /\ extractEnglishWords "" = []
  /\ extractEnglishWords "123 4_5" = [].
Proof. repeat split. Qed.

Lemma throttle_calls_spaced (delay : Z) (times : list Z) :
  forall lastCall, spaced delay lastCall (throttle_calls delay lastCall times).
Proof.
  induction times as [|now rest IH]; intros lastCall; cbn [throttle_calls spaced];
    [done|].
  unfold throttle_call. destruct (Z.geb_spec (now - lastCall) delay) as [Hge|Hlt].
  - cbn [spaced]. split; [lia | apply IH].
  - apply IH.
Qed.

(** X28. [throttle] lets calls through at least [delay] apart.  Whatever the
    times at which the throttled function is called, the calls that reach
    [func] are among them, in order, each at least [delay] after the one
    before (the first at least [delay] after time 0, where the closure
    starts); a call is dropped, not postponed. *)
Theorem throttle_spaces_calls (delay : Z) (times : list Z) :
  spaced delay 0 (throttle_calls delay 0 times)
  /\ sublist (throttle_calls delay 0 times) times.
Proof.
  split.
  - apply throttle_calls_spaced.
  - generalize 0. induction times as [|now rest IH]; intros lastCall;
      cbn [throttle_calls]; [constructor|].
    unfold throttle_call. destruct (Z.geb (now - lastCall) delay).
    + apply sublist_skip, IH.
    + apply sublist_cons, IH.
Qed.

Example throttle_example :
  throttle_calls 100 0 [1000; 1050; 1099; 1100; 1150; 1300] = [1000; 1100; 1300].
Proof. reflexivity. Qed.
